(** * tinyml4d-pixels: a shallow embedding of [src/App.jsx]

    The page is a React component tree; what is verified here is the
    arithmetic and the small state machines behind its visual effects:

    - [pseudoRandom], the noise function of the pixel background;
    - [PixelBackground.render], the colour choice and the painting of the
      canvas cells;
    - [ParticleMorphScene.onScroll] and [ParticleMorphScene.animate], the
      scroll-progress mapper and the per-frame particle update;
    - [App], the hero "scroll-jack" state machine with its timers;
    - [CountUpAnimation], [AnimatedLogo] and [ScrollReveal], the counters,
      the logo jitter and the reveal latch.

    [Math.random()] is a parameter wherever the source calls it: a
    handler takes the results of the calls written in its own text, in
    the order it evaluates them, as a function [draws : nat -> R].  Calls
    made inside a library (three.js draws random numbers for the uuids
    of the objects it creates) are not among them.

    ** Numbers

    A JavaScript Number is modelled as a real number ([R]).  ECMAScript
    leaves [Math.sin] implementation-approximated, so no bit-exact model of
    the formulas below exists; every statement in this file is about the
    exact arithmetic the source text denotes.  [Math.max], [Math.min],
    [Math.abs] and [Math.floor] are [Rmax], [Rmin], [Rabs] and [Zfloor];
    a comparison [a < b] used as a condition is [Rltb a b]. *)

From Stdlib Require Import Reals Lra Lia ZArith List Bool String.
From stdpp Require Import gmap.
Import ListNotations.

Open Scope R_scope.

(** ** Numeric primitives *)

(** Rounding toward zero, the quotient that [%] uses. *)
Definition Rtrunc (x : R) : Z :=
  if Rle_dec 0 x then Zfloor x else Zceil x.

(** The conditions [a < b] and [a <= b] as booleans. *)
Definition Rltb (a b : R) : bool := if Rlt_dec a b then true else false.
Definition Rleb (a b : R) : bool := if Rle_dec a b then true else false.

(** [a % b]: the remainder of the truncated division; its sign follows the
    dividend. *)
Definition js_rem (a b : R) : R := a - b * IZR (Rtrunc (a / b)).

(** [[
const pseudoRandom = (x, y) => {
  return Math.abs(Math.sin(x * 12.9898 + y * 78.233) * 43758.5453) % 1;
};
]] *)
Definition pseudoRandom (x y : R) : R :=
  js_rem (Rabs (sin (x * 12.9898 + y * 78.233) * 43758.5453)) 1.

(** ** The canvas background *)

Module PixelBackground.

(** The eleven colours, in the order of the source. *)
Definition palette : list string :=
  [ "#eef2ff"; "#e0e7ff";
    "#c7d2fe"; "#a5b4fc"; "#818cf8";
    "#6366f1"; "#fca5a5"; "#86efac"; "#fde047";
    "#94a3b8"; "#64748b" ]%string.

(** [palette.length] *)
Definition palette_length : Z := Z.of_nat (length palette).

(** [palette[i]], [None] standing for [undefined]. *)
Definition palette_at (i : Z) : option string :=
  if (i <? 0)%Z then None else palette !! Z.to_nat i.

(** The touched cells.  The source keys its [Map] by the string
    [`${x},${y}`] of two integers, which determines the pair; the key is
    the pair here. *)
Abbreviation TouchedPixels := (gmap (Z * Z) R).

(** The touched branch of [render], before the range guard:
    [Math.floor((noiseVal + touchMod + (currentScroll * 0.001)) *
    (palette.length - 2)) + 2]. *)
Definition touchedIndex (noiseVal touchMod currentScroll : R) : Z :=
  (Zfloor ((noiseVal + touchMod + currentScroll * 0.001)
           * IZR (palette_length - 2)) + 2)%Z.

(** The untouched branch: [Math.floor(noiseVal * palette.length * 1.5)]. *)
Definition untouchedIndex (noiseVal : R) : Z :=
  Zfloor (noiseVal * IZR palette_length * 1.5).

(** [if (colorIndex >= palette.length) colorIndex = 0;] *)
Definition guardIndex (colorIndex : Z) : Z :=
  if (colorIndex >=? palette_length)%Z then 0%Z else colorIndex.

(** The colour index of a touched cell as a function of the three blended
    quantities. *)
Definition touchedColorIndex (noiseVal touchMod currentScroll : R) : Z :=
  guardIndex (touchedIndex noiseVal touchMod currentScroll).

(** What one iteration of the two nested loops of [render] decides for
    the cell [(x, y)]. *)
Record CellPaint := {
  colorIndex : Z;
  (** the [fillStyle] of the rectangle drawn, [None] when none is drawn *)
  fill : option string
}.

Definition renderCell (touchedPixels : TouchedPixels) (currentScroll : R)
    (x y : Z) : CellPaint :=
  let scrollFactor := Zfloor (currentScroll / 4) in
  let touchMod := touchedPixels !! (x, y) in
  let isTouched := bool_decide (is_Some touchMod) in
  let noiseVal := pseudoRandom (IZR x) (IZR y + IZR scrollFactor) in
  let colorIndex :=
    match touchMod with
    | Some touchMod => touchedIndex noiseVal touchMod currentScroll
    | None => untouchedIndex noiseVal
    end in
  let colorIndex := guardIndex colorIndex in
  {| colorIndex := colorIndex;
     fill :=
       if (1 <? colorIndex)%Z || isTouched then
         match palette_at colorIndex with
         | Some c => Some c
         | None => palette_at 2
         end
       else None |}.

(** One call of [ctx.fillRect] with the [fillStyle] in force. *)
Record FillRect := mkFillRect {
  fillStyle : string;
  rect_x : R;
  rect_y : R;
  rect_w : R;
  rect_h : R
}.

Definition cellSize : Z := 12.

(** One frame of [render] on a canvas of the size of the window: the
    rectangles it fills, in order.  The base colour comes first, then the
    cells row by row. *)
Definition render (touchedPixels : TouchedPixels)
    (currentScroll innerWidth innerHeight : R) : list FillRect :=
  let width := innerWidth in
  let height := innerHeight in
  let cols := Zceil (width / IZR cellSize) in
  let rows := Zceil (height / IZR cellSize) in
  mkFillRect "#f8fafc" 0 0 width height ::
  flat_map (fun y =>
    flat_map (fun x =>
      match fill (renderCell touchedPixels currentScroll x y) with
      | Some c =>
          [mkFillRect c (IZR (x * cellSize)) (IZR (y * cellSize))
             (IZR (cellSize - 1)) (IZR (cellSize - 1))]
      | None => []
      end) (seqZ 0 cols)) (seqZ 0 rows).

(** *** The pointer brush and the scroll listener *)

(** The two refs of the component. *)
Record Background := mkBackground {
  scrollRef : R;
  touchedPixels : TouchedPixels
}.

(** [useRef(0)] and [useRef(new Map())] *)
Definition newBackground : Background := mkBackground 0 ∅.

(** [scrollRef.current = window.scrollY;] *)
Definition handleScroll (scrollY : R) (bg : Background) : Background :=
  mkBackground scrollY (touchedPixels bg).

(** What [handleMouseMove] reads of [canvas.getBoundingClientRect()]. *)
Record CanvasRect := mkCanvasRect { rect_left : R; rect_top : R }.

(** The offsets [(dx, dy)] for which the two loops from [-radius] to
    [radius] reach the [set] call, in the order they reach it ([dy] is
    the outer loop). *)
Definition brushOffsets (radius : Z) : list (Z * Z) :=
  flat_map (fun dy =>
    flat_map (fun dx =>
      if bool_decide (dx * dx + dy * dy <= radius * radius)%Z
      then [(dx, dy)] else [])
      (seqZ (- radius) (2 * radius + 1)))
    (seqZ (- radius) (2 * radius + 1)).

(** The [set] calls of one brush stroke around the cell
    [(gridX, gridY)].  [draws k] is the result of call number [k] of
    [Math.random()] during the stroke; the second component counts the
    calls made. *)
Definition stroke (gridX gridY : Z) (draws : nat -> R)
    (touched : TouchedPixels) : TouchedPixels * nat :=
  fold_left
    (fun (acc : TouchedPixels * nat) (d : Z * Z) =>
       (<[ ((gridX + d.1)%Z, (gridY + d.2)%Z) := draws acc.2 ]> acc.1,
        S acc.2))
    (brushOffsets 3) (touched, 0%nat).

#[global] Arguments brushOffsets : simpl never.
#[global] Arguments stroke : simpl never.

(** The cell under the pointer:
    [Math.floor((e.clientX - rect.left) / cellSize)], and the same for
    [y]. *)
Definition pointerCell (rect : CanvasRect) (clientX clientY : R) : Z * Z :=
  (Zfloor ((clientX - rect_left rect) / IZR cellSize),
   Zfloor ((clientY - rect_top rect) / IZR cellSize)).

(** [handleMouseMove], given [canvasRef.current] ([None] for [null]). *)
Definition handleMouseMove (canvas : option CanvasRect)
    (clientX clientY : R) (draws : nat -> R) (bg : Background) : Background :=
  match canvas with
  | None => bg
  | Some rect =>
      let (gridX, gridY) := pointerCell rect clientX clientY in
      mkBackground (scrollRef bg)
        (stroke gridX gridY draws (touchedPixels bg)).1
  end.

(** The events the component listens to, and a frame of its loop. *)
Inductive Event :=
| Scrolled (scrollY : R)
| MouseMoved (canvas : option CanvasRect) (clientX clientY : R)
    (draws : nat -> R).

Definition handle (ev : Event) (bg : Background) : Background :=
  match ev with
  | Scrolled y => handleScroll y bg
  | MouseMoved canvas cx cy draws => handleMouseMove canvas cx cy draws bg
  end.

Definition handleAll (evs : list Event) (bg : Background) : Background :=
  fold_left (fun b ev => handle ev b) evs bg.

(** The frame [render] paints for the refs as they are. *)
Definition renderFrame (bg : Background) (innerWidth innerHeight : R) :
    list FillRect :=
  render (touchedPixels bg) (scrollRef bg) innerWidth innerHeight.

(** Every result of [Math.random()] an event uses lies in [0, 1). *)
Definition unit_draws (ev : Event) : Prop :=
  match ev with
  | Scrolled _ => True
  | MouseMoved _ _ _ draws => forall k, 0 <= draws k < 1
  end.

End PixelBackground.

(** ** The particle scene *)

Module ParticleMorphScene.

(** *** The parts of three.js the scene relies on

    three.js is an external library; the three methods used by [animate]
    are modelled from its documentation. *)

Record Vector3 := mkVector3 { vx : R; vy : R; vz : R }.

(** [this.lerpVectors(v1, v2, alpha)]: the point at fraction [alpha] of the
    way from [v1] to [v2], computed componentwise as
    [v1 + (v2 - v1) * alpha]. *)
Definition lerpVectors (v1 v2 : Vector3) (alpha : R) : Vector3 :=
  {| vx := vx v1 + (vx v2 - vx v1) * alpha;
     vy := vy v1 + (vy v2 - vy v1) * alpha;
     vz := vz v1 + (vz v2 - vz v1) * alpha |}.

(** The convex combination [(1 - t) a + t b] of two points. *)
Definition convex (t : R) (a b : Vector3) : Vector3 :=
  {| vx := (1 - t) * vx a + t * vx b;
     vy := (1 - t) * vy a + t * vy b;
     vz := (1 - t) * vz a + t * vz b |}.

(** [this.setScalar(s)] *)
Definition setScalar (s : R) : Vector3 := {| vx := s; vy := s; vz := s |}.

(** The Euler angles of an object. *)
Record Euler := mkEuler { ex : R; ey : R; ez : R }.

Record Mesh := mkMesh {
  position : Vector3;
  rotation : Euler;
  scale : Vector3
}.

(** *** Scene state *)

(** [CONFIG.rotationSpeed] *)
Definition rotationSpeed : R := 0.002.

(** One entry of [particles], as pushed by [init]. *)
Record Particle := mkParticle {
  mesh : Mesh;
  startPos : Vector3;
  endPos : Vector3;
  rotSpeed_x : R;
  rotSpeed_y : R;
  delay : R
}.

(** The two refs, the particle group (absent until [init] has run) and the
    particle array. *)
Record Scene := mkScene {
  targetScrollProgress : R;
  scrollProgress : R;
  particleGroup : option Euler;
  particles : list Particle
}.

(** *** [animate] *)

(** [[
let localProgress = (sp * 1.5) - (p.delay * 0.5);
localProgress = Math.max(0, Math.min(1, localProgress));
]] *)
Definition localProgress (sp delay : R) : R :=
  Rmax 0 (Rmin 1 (sp * 1.5 - delay * 0.5)).

(** [[
const t = localProgress < .5 ? 2 * localProgress * localProgress
                             : -1 + (4 - 2 * localProgress) * localProgress;
]] *)
Definition ease (localProgress : R) : R :=
  if Rltb localProgress 0.5
  then 2 * localProgress * localProgress
  else -1 + (4 - 2 * localProgress) * localProgress.

(** [const scale = 1 + (Math.sin(t * Math.PI) * 0.5);] *)
Definition scaleFactor (t : R) : R := 1 + sin (t * PI) * 0.5.

(** The body of [particles.forEach(p => ...)] for a clamped phase
    [localProgress]. *)
Definition moveParticle (localProgress : R) (p : Particle) : Particle :=
  let t := ease localProgress in
  let m := mesh p in
  {| mesh :=
       {| position := lerpVectors (startPos p) (endPos p) t;
          rotation := {| ex := ex (rotation m) + rotSpeed_x p;
                         ey := ey (rotation m) + rotSpeed_y p;
                         ez := ez (rotation m) |};
          scale := setScalar (scaleFactor t) |};
     startPos := startPos p;
     endPos := endPos p;
     rotSpeed_x := rotSpeed_x p;
     rotSpeed_y := rotSpeed_y p;
     delay := delay p |}.

Definition updateParticle (sp : R) (p : Particle) : Particle :=
  moveParticle (localProgress sp (delay p)) p.

(** [scrollProgress.current += (targetScrollProgress.current -
    scrollProgress.current) * 0.05;] *)
Definition damp (scrollProgress targetScrollProgress : R) : R :=
  scrollProgress + (targetScrollProgress - scrollProgress) * 0.05.

(** One animation frame.  Scheduling the next frame and the final
    [renderer.render] leave the scene state as it is. *)
Definition animate (s : Scene) : Scene :=
  let sp := damp (scrollProgress s) (targetScrollProgress s) in
  let currentRotSpeed := rotationSpeed + sp * 0.002 in
  {| targetScrollProgress := targetScrollProgress s;
     scrollProgress := sp;
     particleGroup :=
       match particleGroup s with
       | Some r => Some {| ex := ex r;
                           ey := ey r + currentRotSpeed;
                           ez := ez r + currentRotSpeed * 0.2 |}
       | None => None
       end;
     particles := map (updateParticle sp) (particles s) |}.

(** *** [onScroll] *)

(** [containerRef.current.getBoundingClientRect()] *)
Record DOMRect := mkDOMRect { top : R; height : R; bottom : R }.

(** The object passed to [console.log]. *)
Record ScrollDebug := mkScrollDebug {
  rectTop : R;
  rectHeight : R;
  dbg_viewportHeight : R;
  dbg_totalDistance : R;
  calculatedProgress : R;
  isStickyActive : bool
}.

(** What a call of [onScroll] does besides writing the ref: the divisions
    it evaluates and the record it logs, in program order. *)
Inductive Effect :=
| Division (numerator denominator : R)
| ConsoleLog (d : ScrollDebug).

(** A computation with its trace of effects. *)
Definition Traced (A : Type) : Type := A * list Effect.

#[export] Instance traced_ret : MRet Traced := fun A a => (a, []).

#[export] Instance traced_bind : MBind Traced := fun A B k m =>
  let (a, t1) := m in let (b, t2) := k a in (b, t1 ++ t2).

(** [a / b], recorded. *)
Definition divide (a b : R) : Traced R := (a / b, [Division a b]).

Definition console_log (d : ScrollDebug) : Traced unit := (tt, [ConsoleLog d]).

(** [Math.max(0, Math.min(1, -rect.top / totalDistance))] *)
Definition clampedRatio (rect : DOMRect) (totalDistance : R) : Traced R :=
  q ← divide (- top rect) totalDistance;
  mret (Rmax 0 (Rmin 1 q)).

(** [onScroll], given [containerRef.current] ([None] for [null]) and
    [window.innerHeight]. *)
Definition onScroll (container : option DOMRect) (innerHeight : R)
    (s : Scene) : Traced Scene :=
  match container with
  | None => mret s
  | Some rect =>
      let viewportHeight := innerHeight in
      let totalDistance := height rect - viewportHeight in
      calculatedProgress ←
        (if Rltb 0 totalDistance then clampedRatio rect totalDistance
         else mret 0);
      _ ← console_log
             {| rectTop := top rect;
                rectHeight := height rect;
                dbg_viewportHeight := viewportHeight;
                dbg_totalDistance := totalDistance;
                calculatedProgress := calculatedProgress;
                isStickyActive :=
                  Rleb (top rect) 0 && Rleb viewportHeight (bottom rect) |};
      if Rltb 0 totalDistance then
        progress ← clampedRatio rect totalDistance;
        mret {| targetScrollProgress := progress;
               scrollProgress := scrollProgress s;
               particleGroup := particleGroup s;
               particles := particles s |}
      else mret s
  end.

(** The record [onScroll] logs when the progress it computed for the log
    is [calculated]. *)
Definition debugRecord (rect : DOMRect) (viewportHeight calculated : R) : ScrollDebug :=
  {| rectTop := top rect;
     rectHeight := height rect;
     dbg_viewportHeight := viewportHeight;
     dbg_totalDistance := height rect - viewportHeight;
     calculatedProgress := calculated;
     isStickyActive := Rleb (top rect) 0 && Rleb viewportHeight (bottom rect) |}.

(** The divisors of the divisions in a trace. *)
Definition divisors (t : list Effect) : list R :=
  flat_map (fun e => match e with
                     | Division _ d => [d]
                     | ConsoleLog _ => []
                     end) t.

(** *** The formula of the specification

    The progress as the specification's section 4.3 writes it:
    [clamp((viewportHeight - top) / (containerHeight - viewportHeight), 0, 1)]. *)
Definition clamp (v lo hi : R) : R := Rmax lo (Rmin hi v).

Definition spec_progress (rect : DOMRect) (viewportHeight : R) : R :=
  clamp ((viewportHeight - top rect) / (height rect - viewportHeight)) 0 1.

(** *** [init] *)

(** More of three.js, from its documentation: [length], [multiplyScalar],
    [divideScalar] (multiplication by the inverse) and [normalize]
    (division by [length() || 1]). *)
Definition v_length (v : Vector3) : R :=
  sqrt (vx v * vx v + vy v * vy v + vz v * vz v).

Definition multiplyScalar (s : R) (v : Vector3) : Vector3 :=
  {| vx := vx v * s; vy := vy v * s; vz := vz v * s |}.

Definition divideScalar (s : R) (v : Vector3) : Vector3 :=
  multiplyScalar (1 / s) v.

Definition normalize (v : Vector3) : Vector3 :=
  divideScalar (if Req_dec_T (v_length v) 0 then 1 else v_length v) v.

(** [CONFIG] *)
Definition cubeSize : Z := 8.
Definition spreadCube : R := 4.
Definition spreadSphere : R := 3.5.
Definition colors : list Z :=
  [0x0099FF; 0xCC00CC; 0x00AA00; 0xEE0000; 0xEEAA00; 0xFF3333]%Z.

(** The body of the innermost loop of [init] for the lattice point
    [(x, y, z)].  [draws k] is the result of the [k]-th of the eight
    [Math.random()] calls written in the loop body: the radius variation,
    the colour, the three initial angles, the two rotation speeds and the
    delay, in the order the source evaluates them.  (The three.js
    constructors called in between make random draws of their own; those
    are not counted.) *)
Definition initParticle (x y z : Z) (draws : nat -> R) : Particle :=
  let count := IZR cubeSize in
  let offset := (count - 1) / 2 in
  let spacing := spreadCube / count in
  let startPos :=
    {| vx := (IZR x - offset) * spacing;
       vy := (IZR y - offset) * spacing;
       vz := (IZR z - offset) * spacing |} in
  let endPos := multiplyScalar spreadSphere (normalize startPos) in
  let radiusVariation := 1 + (draws 0%nat * 0.2 - 0.1) in
  let endPos := multiplyScalar radiusVariation endPos in
  {| mesh :=
       {| position := startPos;
          rotation := {| ex := draws 2%nat * PI;
                         ey := draws 3%nat * PI;
                         ez := draws 4%nat * PI |};
          scale := {| vx := 1; vy := 1; vz := 1 |} |};
     startPos := startPos;
     endPos := endPos;
     rotSpeed_x := (draws 5%nat - 0.5) * 0.02;
     rotSpeed_y := (draws 6%nat - 0.5) * 0.02;
     delay := draws 7%nat * 0.5 |}.

(** [CONFIG.colors[Math.floor(Math.random() * CONFIG.colors.length)]],
    the colour of the material of the same iteration. *)
Definition particleColor (draws : nat -> R) : option Z :=
  let i := Zfloor (draws 1%nat * IZR (Z.of_nat (length colors))) in
  if (i <? 0)%Z then None else colors !! Z.to_nat i.

(** The lattice points in the order of the three loops ([x] outermost). *)
Definition lattice : list (Z * Z * Z) :=
  flat_map (fun x =>
    flat_map (fun y =>
      map (fun z => (x, y, z)) (seqZ 0 cubeSize))
      (seqZ 0 cubeSize))
    (seqZ 0 cubeSize).

(** The particle array [init] builds.  [rnd k] is the result of the
    [k]-th of the [Math.random()] calls that the text of [init] itself
    makes, eight in each iteration; it is not the number of the call
    among all calls of [Math.random()], since three.js makes calls of its
    own between them. *)
Definition initParticles (rnd : nat -> R) : list Particle :=
  imap (fun i (c : Z * Z * Z) =>
          initParticle c.1.1 c.1.2 c.2 (fun k => rnd (8 * i + k)%nat))
       lattice.

(** The scene before [init]: the two refs at 0, no group, no particle. *)
Definition newScene : Scene := mkScene 0 0 None [].

(** [init], given whether [canvasRef.current] is there: it fills the
    scene and runs the first [animate]. *)
Definition init (canvas : bool) (rnd : nat -> R) (s : Scene) : Scene :=
  if canvas then
    animate {| targetScrollProgress := targetScrollProgress s;
               scrollProgress := scrollProgress s;
               particleGroup := Some (mkEuler 0 0 0);
               particles := particles s ++ initParticles rnd |}
  else s.

(** What happens to a mounted scene: an animation frame or a scroll
    event. *)
Inductive SceneEvent :=
| Frame
| ScrollEvent (container : option DOMRect) (innerHeight : R).

Definition sceneStep (ev : SceneEvent) (s : Scene) : Scene :=
  match ev with
  | Frame => animate s
  | ScrollEvent container innerHeight => (onScroll container innerHeight s).1
  end.

Definition sceneRun (evs : list SceneEvent) (s : Scene) : Scene :=
  fold_left (fun q ev => sceneStep ev q) evs s.

(** What a frame never changes of a particle. *)
Definition blueprint (p : Particle) : Vector3 * Vector3 * R * R * R :=
  (startPos p, endPos p, rotSpeed_x p, rotSpeed_y p, delay p).

#[global] Arguments lattice : simpl never.
#[global] Arguments initParticles : simpl never.

End ParticleMorphScene.

(** ** The hero state machine *)

Module App.

Inductive HeroState := initial | transitioning | swapped.

#[export] Instance HeroState_eq_dec : EqDecision HeroState.
Proof. solve_decision. Defined.

(** [document.body.style.overflow]; it is the empty string until the
    component writes it. *)
Inductive Overflow := overflow_unset | overflow_hidden | overflow_auto.

(** The two events [handleInput] is registered for. *)
Inductive InputEvent :=
| wheel (deltaY : R)
| touchmove.

(** The two [setTimeout] callbacks of the component. *)
Inductive TimerTask :=
| show_modal    (* [() => { setShowModal(true); }] *)
| finish_swap.  (* [() => { setHeroState('swapped'); ...overflow = 'auto'; }] *)

(** A pending timer and the milliseconds left before it fires. *)
Record Timer := mkTimer { remaining : nat; task : TimerTask }.

(** The state of the page as far as [App] reads and writes it.  The two
    React states are the committed ones; [inputListener] is the
    [handleInput] closure currently registered on [window] for [wheel] and
    [touchmove], given by the [showModal] and [heroState] it captured. *)
Record Page := mkPage {
  heroState : HeroState;
  showModal : bool;
  scrollY : R;
  overflow : Overflow;
  inputListener : option (bool * HeroState);
  timers : list Timer
}.

Definition set_heroState (h : HeroState) (p : Page) : Page :=
  mkPage h (showModal p) (scrollY p) (overflow p) (inputListener p) (timers p).

Definition set_showModal (b : bool) (p : Page) : Page :=
  mkPage (heroState p) b (scrollY p) (overflow p) (inputListener p) (timers p).

Definition set_scrollY (y : R) (p : Page) : Page :=
  mkPage (heroState p) (showModal p) y (overflow p) (inputListener p) (timers p).

Definition set_overflow (o : Overflow) (p : Page) : Page :=
  mkPage (heroState p) (showModal p) (scrollY p) o (inputListener p) (timers p).

Definition set_inputListener (l : option (bool * HeroState)) (p : Page) : Page :=
  mkPage (heroState p) (showModal p) (scrollY p) (overflow p) l (timers p).

Definition set_timers (ts : list Timer) (p : Page) : Page :=
  mkPage (heroState p) (showModal p) (scrollY p) (overflow p) (inputListener p) ts.

(** [setTimeout(task, ms)] *)
Definition setTimeout (t : TimerTask) (ms : nat) (p : Page) : Page :=
  set_timers (timers p ++ [mkTimer ms t]) p.

(** *** The handlers *)

(** [[
const handleScrollReset = () => {
  if (window.scrollY < 50 && heroState === 'swapped') {
     setHeroState('initial');
  }
};
]]
    The effect that registers it depends on [heroState], so the closure
    always holds the committed state. *)
Definition handleScrollReset (p : Page) : Page :=
  if Rltb (scrollY p) 50 && bool_decide (heroState p = swapped)
  then set_heroState initial p
  else p.

(** [[
const handleInput = (e) => {
  if (showModal) return;
  if (heroState !== 'initial') return;
  if (e.type === 'wheel' && e.deltaY <= 0) return;
  setHeroState('transitioning');
  setTimeout(() => { ... }, 1500);
};
]]
    [showModal] and [heroState] are the values the closure captured. *)
Definition handleInput (showModal : bool) (heroState : HeroState)
    (e : InputEvent) (p : Page) : Page :=
  if showModal then p
  else if negb (bool_decide (heroState = initial)) then p
  else
    let ignored :=
      match e with
      | wheel deltaY => Rleb deltaY 0
      | touchmove => false
      end in
    if ignored then p
    else setTimeout finish_swap 1500 (set_heroState transitioning p).

(** The bodies of the two timer callbacks. *)
Definition run_task (t : TimerTask) (p : Page) : Page :=
  match t with
  | show_modal => set_showModal true p
  | finish_swap => set_overflow overflow_auto (set_heroState swapped p)
  end.

(** *** The scroll-jacking effect *)

(** The function the effect returned the last time it ran: it exists only
    when the effect got past its early [return], that is when it registered
    the listeners. *)
Definition cleanup (p : Page) : Page :=
  match inputListener p with
  | Some _ => set_overflow overflow_auto (set_inputListener None p)
  | None => p
  end.

(** The body of the effect. *)
Definition setup (p : Page) : Page :=
  if Rltb 50 (scrollY p) then set_overflow overflow_auto p
  else
    let p1 :=
      if bool_decide (heroState p = initial)
      then set_overflow overflow_hidden p else p in
    set_inputListener (Some (showModal p, heroState p)) p1.

Definition scrollJackEffect (p : Page) : Page := setup (cleanup p).

(** React commits a state update and re-runs the effect, whose
    dependencies are [heroState] and [showModal], when one of the two has
    changed; each event below is handled to completion, commit included,
    before the next one. *)
Definition rerender (before after : Page) : Page :=
  if bool_decide (heroState before = heroState after)
     && Bool.eqb (showModal before) (showModal after)
  then after
  else scrollJackEffect after.

(** *** Timers *)

Definition age (t : Timer) : Timer := mkTimer (pred (remaining t)) (task t).

Definition is_due (t : Timer) : bool := Nat.eqb (remaining t) 0.

Definition fire (p : Page) (t : Timer) : Page := rerender p (run_task (task t) p).

(** One millisecond passes: the timers that reach zero fire, in the order
    they were set. *)
Definition tick (p : Page) : Page :=
  let aged := map age (timers p) in
  fold_left fire (List.filter is_due aged)
    (set_timers (List.filter (fun t => negb (is_due t)) aged) p).

Fixpoint elapse (ms : nat) (p : Page) : Page :=
  match ms with
  | O => p
  | S n => elapse n (tick p)
  end.

(** *** Events *)

Inductive Event :=
| Input (e : InputEvent)   (* a [wheel] or [touchmove] event on [window] *)
| Scroll (y : R)           (* a [scroll] event, [window.scrollY] being [y] *)
| Elapse (ms : nat)        (* [ms] milliseconds pass *)
| CloseModal.              (* [onClose] of the modal *)

(** One event, handled to completion: the handler, then React's commit
    and the effect ([rerender]).  An event that arrives before React has
    committed the previous one is outside this model. *)
Definition step (ev : Event) (p : Page) : Page :=
  match ev with
  | Input e =>
      match inputListener p with
      | Some (m, h) => rerender p (handleInput m h e p)
      | None => p
      end
  | Scroll y =>
      let p1 := set_scrollY y p in
      rerender p1 (handleScrollReset p1)
  | Elapse ms => elapse ms p
  | CloseModal => rerender p (set_showModal false p)
  end.

Definition run (evs : list Event) (p : Page) : Page :=
  fold_left (fun q ev => step ev q) evs p.

(** The first render, with [window.scrollY] being [y], and its effects:
    the 500 ms timer of the modal, then the scroll-jacking effect. *)
Definition mount (y : R) : Page :=
  scrollJackEffect
    {| heroState := if Rltb 50 y then swapped else initial;
       showModal := false;
       scrollY := y;
       overflow := overflow_unset;
       inputListener := None;
       timers := [mkTimer 500 show_modal] |}.

(** *** Invariants of the running page *)

(** The registered [handleInput] has captured the committed states. *)
Definition listener_fresh (p : Page) : Prop :=
  forall m h, inputListener p = Some (m, h) ->
    m = showModal p /\ h = heroState p.

(** The page is scroll-locked only in the state [initial], with
    [handleInput] registered. *)
Definition lock_armed (p : Page) : Prop :=
  overflow p = overflow_hidden ->
  heroState p = initial /\ inputListener p = Some (showModal p, initial).

Definition consistent (p : Page) : Prop := listener_fresh p /\ lock_armed p.

(** Every pending timer fires within 1500 ms, and while the hero is
    [transitioning] the timer that ends the transition is pending. *)
Definition swap_scheduled (p : Page) : Prop :=
  Forall (fun t => (1 <= remaining t <= 1500)%nat) (timers p)
  /\ (heroState p = transitioning ->
        Exists (fun t => task t = finish_swap) (timers p)).

End App.

(** ** The counters *)

Module CountUpAnimation.

(** The closure variable [startTime] ([None] for [null]), the [count]
    state, and whether [animate] has requested another frame. *)
Record Counter := mkCounter {
  startTime : option R;
  count : Z;
  scheduled : bool
}.

(** [!startTime]: [null] and 0 are falsy. *)
Definition unset (startTime : option R) : bool :=
  match startTime with
  | None => true
  | Some s => if Req_dec_T s 0 then true else false
  end.

(** [[
const animate = (timestamp) => {
  if (!startTime) startTime = timestamp;
  const progress = Math.min((timestamp - startTime) / duration, 1);
  const easeValue = progress === 1 ? 1 : 1 - Math.pow(2, -10 * progress);
  setCount(Math.floor(easeValue * end));
  if (progress < 1) {
    animationFrameId = requestAnimationFrame(animate);
  }
};
]]
    [Math.pow(2, x)] is [Rpower 2 x]. *)
Definition progressAt (duration start timestamp : R) : R :=
  Rmin ((timestamp - start) / duration) 1.

Definition easeValue (progress : R) : R :=
  if Req_dec_T progress 1 then 1 else 1 - Rpower 2 (-10 * progress).

Definition animate (end_ duration timestamp : R) (c : Counter) : Counter :=
  let startTime :=
    if unset (startTime c) then timestamp
    else match startTime c with Some s => s | None => timestamp end in
  let progress := progressAt duration startTime timestamp in
  {| startTime := Some startTime;
     count := Zfloor (easeValue progress * end_);
     scheduled := Rltb progress 1 |}.

(** The effect, once [hasStarted] is set: [startTime] is [null], the
    count is still 0 and the first frame is requested. *)
Definition started : Counter := mkCounter None 0 true.

(** An animation frame at [timestamp]: [animate] runs if it was
    requested. *)
Definition frame (end_ duration timestamp : R) (c : Counter) : Counter :=
  if scheduled c then animate end_ duration timestamp c else c.

Definition play (end_ duration : R) (timestamps : list R) : Counter :=
  fold_left (fun c t => frame end_ duration t c) timestamps started.

End CountUpAnimation.

(** ** The logo *)

Module AnimatedLogo.

Record Offsets := mkOffsets {
  x1 : R; y1 : R; r1 : R;
  x2 : R; y2 : R; r2 : R
}.

(** The scroll listener of the logo.  [draws k] is the result of call
    number [k] of [Math.random()] in the object literal. *)
Definition handleScroll (draws : nat -> R) : Offsets :=
  {| x1 := (draws 0%nat - 0.5) * 12;
     y1 := (draws 1%nat - 0.5) * 12;
     r1 := (draws 2%nat - 0.5) * 60;
     x2 := (draws 3%nat - 0.5) * 12;
     y2 := (draws 4%nat - 0.5) * 12;
     r2 := (draws 5%nat - 0.5) * 60 |}.

End AnimatedLogo.

(** ** Reveal on scroll *)

Module ScrollReveal.

(** The observer callback: [[
entries.forEach(entry => {
  if (entry.isIntersecting) setIsVisible(true);
});
]]
    on the [isIntersecting] flags of its entries. *)
Definition observed (entries : list bool) (isVisible : bool) : bool :=
  fold_left (fun (v isIntersecting : bool) => if isIntersecting then true else v)
    entries isVisible.

(** The state after a sequence of callbacks, from [useState(false)]. *)
Definition visibleAfter (callbacks : list (list bool)) : bool :=
  fold_left (fun v entries => observed entries v) callbacks false.

End ScrollReveal.

(** * Properties *)

(** ** Comparisons and clamping *)

Lemma Rltb_true (a b : R) : a < b -> Rltb a b = true.
Proof. unfold Rltb. destruct (Rlt_dec a b); [reflexivity | contradiction]. Qed.

Lemma Rltb_false (a b : R) : b <= a -> Rltb a b = false.
Proof. unfold Rltb. destruct (Rlt_dec a b); [lra | reflexivity]. Qed.

Lemma Rleb_true (a b : R) : a <= b -> Rleb a b = true.
Proof. unfold Rleb. destruct (Rle_dec a b); [reflexivity | contradiction]. Qed.

Lemma Rleb_false (a b : R) : b < a -> Rleb a b = false.
Proof. unfold Rleb. destruct (Rle_dec a b); [lra | reflexivity]. Qed.

(** Decides every comparison in sight and leaves linear arithmetic. *)
Ltac rcompare :=
  unfold Rltb, Rleb, Rmax, Rmin in *;
  repeat match goal with
         | |- context [Rlt_dec ?a ?b] => destruct (Rlt_dec a b)
         | |- context [Rle_dec ?a ?b] => destruct (Rle_dec a b)
         | H : context [Rlt_dec ?a ?b] |- _ => destruct (Rlt_dec a b)
         | H : context [Rle_dec ?a ?b] |- _ => destruct (Rle_dec a b)
         end;
  try lra.

Lemma clamp01_range (v : R) : 0 <= Rmax 0 (Rmin 1 v) <= 1.
Proof. rcompare. Qed.

Lemma clamp01_inside (v : R) : 0 <= v <= 1 -> Rmax 0 (Rmin 1 v) = v.
Proof. intros Hv. rcompare. Qed.

Lemma clamp01_above (v : R) : 1 <= v -> Rmax 0 (Rmin 1 v) = 1.
Proof. intros Hv. rcompare. Qed.

Lemma clamp01_below (v : R) : v <= 0 -> Rmax 0 (Rmin 1 v) = 0.
Proof. intros Hv. rcompare. Qed.

(** ** The noise function *)

Lemma Rtrunc_nonneg (a : R) : 0 <= a -> Rtrunc a = Zfloor a.
Proof. intros Ha. unfold Rtrunc. destruct (Rle_dec 0 a); [reflexivity | contradiction]. Qed.

(** On a non-negative number, [% 1] is the fractional part. *)
Lemma js_rem_1_range (a : R) : 0 <= a -> 0 <= js_rem a 1 < 1.
Proof.
  intros Ha. unfold js_rem.
  replace (a / 1) with a by field.
  rewrite Rtrunc_nonneg by assumption.
  pose proof (Zfloor_bound a). lra.
Qed.

Lemma pseudoRandom_range (x y : R) : 0 <= pseudoRandom x y < 1.
Proof. unfold pseudoRandom. apply js_rem_1_range, Rabs_pos. Qed.

(** C5: [pseudoRandom] is a function of its two arguments alone (equal
    arguments give equal results, whatever was computed before), and its
    value lies in the interval [0, 1). *)
Theorem pseudoRandom_deterministic_in_unit_interval (x y : R) :
  (forall x' y', x' = x -> y' = y -> pseudoRandom x' y' = pseudoRandom x y)
  /\ 0 <= pseudoRandom x y < 1.
Proof.
  split.
  - intros x' y' -> ->. reflexivity.
  - apply pseudoRandom_range.
Qed.

(** The noise at the origin, where the sine vanishes. *)
Example pseudoRandom_origin : pseudoRandom 0 0 = 0.
Proof.
  unfold pseudoRandom, js_rem.
  replace (0 * 12.9898 + 0 * 78.233) with 0 by lra.
  rewrite sin_0.
  replace (0 * 43758.5453) with 0 by lra.
  rewrite Rabs_R0.
  replace (0 / 1) with 0 by lra.
  rewrite Rtrunc_nonneg by lra.
  replace 0 with (IZR 0) at 3 by reflexivity.
  rewrite ZfloorZ. lra.
Qed.

(** ** The colour of a touched cell *)

Section TouchedCells.
Import PixelBackground.

Lemma palette_length_11 : palette_length = 11%Z.
Proof. reflexivity. Qed.

(** The index before the guard, in terms of the blended sum. *)
Lemma touchedIndex_bounds (noiseVal touchMod currentScroll : R) :
  let blend := noiseVal + touchMod + currentScroll * 0.001 in
  IZR (touchedIndex noiseVal touchMod currentScroll) - 2 <= blend * 9
  /\ blend * 9 < IZR (touchedIndex noiseVal touchMod currentScroll) - 1.
Proof.
  intros blend. unfold touchedIndex. rewrite palette_length_11.
  change (11 - 2)%Z with 9%Z. fold blend.
  pose proof (Zfloor_bound (blend * 9)) as Hb.
  rewrite plus_IZR. lra.
Qed.

Lemma touchedIndex_ge_2 (noiseVal touchMod currentScroll : R) :
  0 <= noiseVal -> 0 <= touchMod -> 0 <= currentScroll ->
  (2 <= touchedIndex noiseVal touchMod currentScroll)%Z.
Proof.
  intros Hn Ht Hs.
  pose proof (touchedIndex_bounds noiseVal touchMod currentScroll) as [_ Hhi].
  cbv zeta in Hhi.
  assert (IZR 1 < IZR (touchedIndex noiseVal touchMod currentScroll)) as H
    by (simpl; nra).
  apply lt_IZR in H. lia.
Qed.

(** The guard sends every index from 11 on to 0 and keeps the others. *)
Lemma touchedColorIndex_cases (noiseVal touchMod currentScroll : R) :
  0 <= noiseVal -> 0 <= touchMod -> 0 <= currentScroll ->
  let blend := noiseVal + touchMod + currentScroll * 0.001 in
  (blend < 1 ->
     (2 <= touchedColorIndex noiseVal touchMod currentScroll <= 10)%Z)
  /\ (1 <= blend -> touchedColorIndex noiseVal touchMod currentScroll = 0%Z).
Proof.
  intros Hn Ht Hs blend.
  pose proof (touchedIndex_bounds noiseVal touchMod currentScroll) as [Hlo Hhi].
  pose proof (touchedIndex_ge_2 _ _ _ Hn Ht Hs) as H2.
  cbv zeta in Hlo, Hhi. fold blend in Hlo, Hhi.
  unfold touchedColorIndex, guardIndex. rewrite palette_length_11.
  set (i := touchedIndex noiseVal touchMod currentScroll) in *.
  split; intros Hb.
  - assert (IZR i < IZR 11) as Hi by (simpl; lra).
    apply lt_IZR in Hi.
    destruct (Z.geb_spec i 11); lia.
  - assert (IZR 10 < IZR i) as Hi by (simpl; lra).
    apply lt_IZR in Hi.
    destruct (Z.geb_spec i 11); lia.
Qed.

(** What [render] computes for a touched cell is [touchedColorIndex] at
    the noise of the cell, shifted by the scroll factor. *)
Lemma renderCell_touched (touchedPixels : TouchedPixels)
    (currentScroll : R) (x y : Z) (touchMod : R) :
  touchedPixels !! (x, y) = Some touchMod ->
  colorIndex (renderCell touchedPixels currentScroll x y)
  = touchedColorIndex
      (pseudoRandom (IZR x) (IZR y + IZR (Zfloor (currentScroll / 4))))
      touchMod currentScroll.
Proof. intros Hk. unfold renderCell. rewrite Hk. reflexivity. Qed.

(** A touched cell is always drawn, in the colour of its index. *)
Lemma renderCell_touched_fill (touchedPixels : TouchedPixels)
    (currentScroll : R) (x y : Z) (touchMod : R) :
  touchedPixels !! (x, y) = Some touchMod ->
  0 <= touchMod -> 0 <= currentScroll ->
  fill (renderCell touchedPixels currentScroll x y)
  = palette_at (colorIndex (renderCell touchedPixels currentScroll x y)).
Proof.
  intros Hk Ht Hs.
  pose proof (renderCell_touched _ currentScroll x y _ Hk) as Hi.
  unfold renderCell in *. rewrite Hk in *. cbn [colorIndex fill] in *.
  rewrite bool_decide_eq_true_2 by eauto. rewrite orb_true_r.
  set (n := pseudoRandom _ _) in *.
  destruct (pseudoRandom_range (IZR x) (IZR y + IZR (Zfloor (currentScroll / 4))))
    as [Hn0 Hn1]. fold n in Hn0, Hn1.
  destruct (Rlt_dec (n + touchMod + currentScroll * 0.001) 1) as [Hb | Hb].
  - destruct (touchedColorIndex_cases n touchMod currentScroll Hn0 Ht Hs) as [Hin _].
    specialize (Hin Hb). unfold touchedColorIndex in Hin.
    set (i := guardIndex _) in *.
    assert (exists k, (k < 11)%nat /\ i = Z.of_nat k) as (k & Hk11 & ->).
    { exists (Z.to_nat i). lia. }
    do 11 (destruct k as [|k]; [reflexivity|]). lia.
  - destruct (touchedColorIndex_cases n touchMod currentScroll Hn0 Ht Hs) as [_ Hout].
    unfold touchedColorIndex in Hout. rewrite Hout by lra. reflexivity.
Qed.

(** A touched cell in view is painted on every frame, in the colour of
    its index. *)
Lemma render_paints_touched (touchedPixels : TouchedPixels)
    (currentScroll innerWidth innerHeight : R) (x y : Z) (touchMod : R) :
  touchedPixels !! (x, y) = Some touchMod ->
  0 <= touchMod -> 0 <= currentScroll ->
  (0 <= x < Zceil (innerWidth / 12))%Z ->
  (0 <= y < Zceil (innerHeight / 12))%Z ->
  exists c,
    palette_at (colorIndex (renderCell touchedPixels currentScroll x y)) = Some c
    /\ In (mkFillRect c (IZR (x * 12)) (IZR (y * 12)) 11 11)
          (render touchedPixels currentScroll innerWidth innerHeight).
Proof.
  intros Hk Ht Hs Hx Hy.
  pose proof (renderCell_touched_fill _ _ _ _ _ Hk Ht Hs) as Hfill.
  pose proof (renderCell_touched _ currentScroll _ _ _ Hk) as Hi.
  set (n := pseudoRandom _ _) in Hi.
  destruct (pseudoRandom_range (IZR x) (IZR y + IZR (Zfloor (currentScroll / 4))))
    as [Hn0 _]. fold n in Hn0.
  assert (exists c,
    palette_at (colorIndex (renderCell touchedPixels currentScroll x y)) = Some c)
    as [c Hc].
  { rewrite Hi.
    destruct (touchedColorIndex_cases n touchMod currentScroll Hn0 Ht Hs) as [Hin Hout].
    destruct (Rlt_dec (n + touchMod + currentScroll * 0.001) 1) as [Hb | Hb].
    - specialize (Hin Hb). set (i := touchedColorIndex _ _ _) in *.
      assert (exists k, (2 <= k < 11)%nat /\ i = Z.of_nat k) as (k & Hk11 & ->).
      { exists (Z.to_nat i). lia. }
      do 11 (destruct k as [|k]; [eexists; reflexivity|]). lia.
    - rewrite Hout by lra. eexists. reflexivity. }
  exists c. split; [exact Hc|].
  unfold render. right.
  apply in_flat_map. exists y. split.
  { apply list_elem_of_In, elem_of_seqZ. unfold cellSize. lia. }
  apply in_flat_map. exists x. split.
  { apply list_elem_of_In, elem_of_seqZ. unfold cellSize. lia. }
  rewrite Hfill, Hc. left. reflexivity.
Qed.

(** C3, refuted as stated: for the touched cell (0, 0) with stored
    intensity 0 and the page scrolled by 1000 px, [render] computes the
    colour index 0 and paints the cell with the first background colour;
    and with no scroll at all, noise 1/2 and intensity 1/2 give index 0. *)
Lemma touched_cell_index_below_2 :
  (exists (touchedPixels : TouchedPixels) currentScroll x y touchMod,
      touchedPixels !! (x, y) = Some touchMod
      /\ 0 <= touchMod < 1 /\ 0 <= currentScroll
      /\ colorIndex (renderCell touchedPixels currentScroll x y) = 0%Z
      /\ fill (renderCell touchedPixels currentScroll x y)
         = Some "#eef2ff"%string)
  /\ (exists noiseVal touchMod currentScroll,
        0 <= noiseVal < 1 /\ 0 <= touchMod < 1 /\ 0 <= currentScroll
        /\ ~ (2 <= touchedColorIndex noiseVal touchMod currentScroll)%Z).
Proof.
  split.
  - exists {[ (0, 0)%Z := 0 ]}, 1000, 0%Z, 0%Z, 0.
    assert (({[ (0, 0)%Z := 0 ]} : TouchedPixels) !! (0, 0)%Z = Some 0) as Hk
      by apply lookup_singleton_eq.
    assert (colorIndex (renderCell {[ (0, 0)%Z := 0 ]} 1000 0 0) = 0%Z) as Hi.
    { rewrite (renderCell_touched _ _ _ _ _ Hk).
      set (n := pseudoRandom _ _).
      destruct (pseudoRandom_range (IZR 0) (IZR 0 + IZR (Zfloor (1000 / 4))))
        as [Hn0 _]. fold n in Hn0.
      apply touchedColorIndex_cases; lra. }
    repeat split; try lra; try assumption.
    rewrite (renderCell_touched_fill _ _ _ _ _ Hk) by lra.
    rewrite Hi. reflexivity.
  - exists 0.5, 0.5, 0. repeat split; try lra.
    assert (touchedColorIndex 0.5 0.5 0 = 0%Z) as ->
      by (apply touchedColorIndex_cases; lra).
    lia.
Qed.

(** C3, amended: for a touched cell, with noise and intensity in [0, 1)
    and a non-negative scroll offset, the blended index is at least 2
    before the range guard; after the guard the index lies in 2..10 when
    noise + intensity + scroll/1000 is below 1, and is 0 otherwise.  This
    is the index [render] uses for every touched cell. *)
Theorem touched_cell_color_index (noiseVal touchMod currentScroll : R) :
  0 <= noiseVal < 1 -> 0 <= touchMod < 1 -> 0 <= currentScroll ->
  let blend := noiseVal + touchMod + currentScroll * 0.001 in
  (2 <= touchedIndex noiseVal touchMod currentScroll)%Z
  /\ (blend < 1 ->
        (2 <= touchedColorIndex noiseVal touchMod currentScroll <= 10)%Z)
  /\ (1 <= blend -> touchedColorIndex noiseVal touchMod currentScroll = 0%Z)
  /\ (forall (touchedPixels : TouchedPixels) x y,
        touchedPixels !! (x, y) = Some touchMod ->
        pseudoRandom (IZR x) (IZR y + IZR (Zfloor (currentScroll / 4)))
          = noiseVal ->
        colorIndex (renderCell touchedPixels currentScroll x y)
        = touchedColorIndex noiseVal touchMod currentScroll).
Proof.
  intros [Hn0 Hn1] [Ht0 Ht1] Hs blend.
  split; [apply touchedIndex_ge_2; assumption|].
  destruct (touchedColorIndex_cases noiseVal touchMod currentScroll Hn0 Ht0 Hs)
    as [Hin Hout].
  split; [exact Hin|]. split; [exact Hout|].
  intros touchedPixels x y Hk <-. apply renderCell_touched, Hk.
Qed.

Lemma touched_cell_color_index_witness :
  (2 <= touchedIndex 0.25 0.5 100)%Z
  /\ (2 <= touchedColorIndex 0.25 0.5 100 <= 10)%Z.
Proof.
  destruct (touched_cell_color_index 0.25 0.5 100) as (H1 & H2 & _);
    [lra | lra | lra |].
  split; [exact H1 | apply H2; lra].
Defined.

End TouchedCells.

(** ** The particle animation *)

Section Particles.
Import ParticleMorphScene.

Lemma Vector3_eq (a b : Vector3) :
  vx a = vx b -> vy a = vy b -> vz a = vz b -> a = b.
Proof. destruct a, b; simpl; intros -> -> ->; reflexivity. Qed.

Lemma lerpVectors_0 (a b : Vector3) : lerpVectors a b 0 = a.
Proof. apply Vector3_eq; simpl; ring. Qed.

Lemma lerpVectors_1 (a b : Vector3) : lerpVectors a b 1 = b.
Proof. apply Vector3_eq; simpl; ring. Qed.

Lemma lerpVectors_convex (a b : Vector3) (t : R) :
  lerpVectors a b t = convex t a b.
Proof. apply Vector3_eq; simpl; ring. Qed.

Lemma ease_0 : ease 0 = 0.
Proof. unfold ease. rewrite Rltb_true by lra. ring. Qed.

Lemma ease_half : ease 0.5 = 0.5.
Proof. unfold ease. rewrite Rltb_false by lra. lra. Qed.

Lemma ease_1 : ease 1 = 1.
Proof. unfold ease. rewrite Rltb_false by lra. ring. Qed.

Lemma ease_range (l : R) : 0 <= l <= 1 -> 0 <= ease l <= 1.
Proof. intros Hl. unfold ease. rcompare; nra. Qed.

Lemma localProgress_range (sp delay : R) : 0 <= localProgress sp delay <= 1.
Proof. apply clamp01_range. Qed.

Lemma scaleFactor_0 : scaleFactor 0 = 1.
Proof. unfold scaleFactor. rewrite Rmult_0_l, sin_0. ring. Qed.

Lemma scaleFactor_1 : scaleFactor 1 = 1.
Proof. unfold scaleFactor. rewrite Rmult_1_l, sin_PI. ring. Qed.

Lemma scaleFactor_half : scaleFactor 0.5 = 1.5.
Proof.
  unfold scaleFactor. replace (0.5 * PI) with (PI / 2) by lra.
  rewrite sin_PI2. lra.
Qed.

Lemma scaleFactor_le (t : R) : scaleFactor t <= 1.5.
Proof. unfold scaleFactor. pose proof (SIN_bound (t * PI)). lra. Qed.

Lemma scaleFactor_ge (t : R) : 0 <= t <= 1 -> 1 <= scaleFactor t.
Proof.
  intros Ht. unfold scaleFactor.
  assert (0 <= sin (t * PI)) as Hs.
  { pose proof PI_RGT_0. apply sin_ge_0; nra. }
  lra.
Qed.

(** C7: one frame of [animate] moves the damped progress by exactly 5% of
    its distance to the target: the new value is
    [old + 0.05 * (target - old)], whatever the old value and the target;
    the target itself is left alone. *)
Theorem animate_damps_five_percent (s : Scene) :
  scrollProgress (animate s)
  = scrollProgress s + 0.05 * (targetScrollProgress s - scrollProgress s)
  /\ targetScrollProgress (animate s) = targetScrollProgress s.
Proof. split; [unfold animate, damp; simpl; ring | reflexivity]. Qed.

(** Every particle of the frame is updated with the damped value of that
    same frame. *)
Lemma animate_particles (s : Scene) :
  particles (animate s)
  = map (updateParticle (scrollProgress (animate s))) (particles s).
Proof. reflexivity. Qed.

(** The three phases that C6 speaks of are reached. *)
Example localProgress_reaches_0 : localProgress 0 0 = 0.
Proof. unfold localProgress. apply clamp01_below. lra. Qed.

Example localProgress_reaches_half : localProgress 0.5 0.5 = 0.5.
Proof. unfold localProgress. rewrite clamp01_inside; lra. Qed.

Example localProgress_reaches_1 : localProgress 1 0.5 = 1.
Proof. unfold localProgress. apply clamp01_above. lra. Qed.

(** C6: at the clamped local phase 0 the update puts a particle exactly at
    its start position, at phase 1 exactly at its end position; the scale
    applied is 1 at both phases, and at phase 0.5 it is 1.5, which no
    phase exceeds. *)
Theorem particle_endpoints_and_scale (p : Particle) :
  position (mesh (moveParticle 0 p)) = startPos p
  /\ position (mesh (moveParticle 1 p)) = endPos p
  /\ scale (mesh (moveParticle 0 p)) = setScalar 1
  /\ scale (mesh (moveParticle 1 p)) = setScalar 1
  /\ scale (mesh (moveParticle 0.5 p)) = setScalar 1.5
  /\ (forall l, scaleFactor (ease l) <= scaleFactor (ease 0.5))
  /\ (forall sp, updateParticle sp p = moveParticle (localProgress sp (delay p)) p).
Proof.
  unfold moveParticle; simpl.
  rewrite ease_0, ease_1, ease_half, scaleFactor_0, scaleFactor_1, scaleFactor_half.
  rewrite lerpVectors_0, lerpVectors_1.
  repeat split. intros l. apply scaleFactor_le.
Qed.

(** C10: whatever the damped progress and the delay, the local phase is
    clamped to [0, 1], the eased parameter [t] stays in [0, 1], the new
    position is the convex combination [(1 - t) start + t end], and the
    scale factor lies in [1, 1.5]. *)
Theorem particle_update_bounds (sp : R) (p : Particle) :
  let l := localProgress sp (delay p) in
  let t := ease l in
  0 <= l <= 1
  /\ 0 <= t <= 1
  /\ position (mesh (updateParticle sp p)) = convex t (startPos p) (endPos p)
  /\ scale (mesh (updateParticle sp p)) = setScalar (scaleFactor t)
  /\ 1 <= scaleFactor t <= 1.5.
Proof.
  intros l t.
  pose proof (localProgress_range sp (delay p)) as Hl. fold l in Hl.
  pose proof (ease_range l Hl) as Ht. fold t in Ht.
  split; [exact Hl|]. split; [exact Ht|].
  split; [apply lerpVectors_convex|]. split; [reflexivity|].
  split; [apply scaleFactor_ge, Ht | apply scaleFactor_le].
Qed.

End Particles.

(** ** The scroll-progress mapper *)

Section ScrollProgress.
Import ParticleMorphScene.

(** A scrollable container: the ratio is evaluated twice, once for the
    log and once for the ref, and the ref is written. *)
Lemma onScroll_scrollable (rect : DOMRect) (vh : R) (s : Scene) :
  0 < height rect - vh ->
  let d := height rect - vh in
  let progress := Rmax 0 (Rmin 1 (- top rect / d)) in
  onScroll (Some rect) vh s
  = ({| targetScrollProgress := progress;
        scrollProgress := scrollProgress s;
        particleGroup := particleGroup s;
        particles := particles s |},
     [ Division (- top rect) d;
       ConsoleLog (debugRecord rect vh progress);
       Division (- top rect) d ]).
Proof.
  intros Hd d progress. unfold onScroll.
  rewrite (Rltb_true _ _ Hd). reflexivity.
Qed.

(** A container no taller than the viewport: only the log happens. *)
Lemma onScroll_short (rect : DOMRect) (vh : R) (s : Scene) :
  height rect - vh <= 0 ->
  onScroll (Some rect) vh s = (s, [ConsoleLog (debugRecord rect vh 0)]).
Proof.
  intros Hd. unfold onScroll.
  rewrite (Rltb_false _ _ Hd). reflexivity.
Qed.

Lemma onScroll_unmounted (vh : R) (s : Scene) : onScroll None vh s = (s, []).
Proof. reflexivity. Qed.

(** C1, refuted as stated: with the container at the top of the viewport
    ([top = 0]), 500 px tall in a 100 px viewport, [onScroll] sets the
    target to 0, while the formula of the specification gives 1/4. *)
Lemma onScroll_differs_from_spec_formula :
  exists (rect : DOMRect) (vh : R) (s : Scene),
    0 < height rect - vh
    /\ targetScrollProgress (onScroll (Some rect) vh s).1 = 0
    /\ spec_progress rect vh = 0.25
    /\ targetScrollProgress (onScroll (Some rect) vh s).1 <> spec_progress rect vh.
Proof.
  exists (mkDOMRect 0 500 500), 100, (mkScene 0 0 None []).
  assert (targetScrollProgress
            (onScroll (Some (mkDOMRect 0 500 500)) 100 (mkScene 0 0 None [])).1 = 0)
    as Ht.
  { rewrite onScroll_scrollable by (simpl; lra). simpl.
    apply clamp01_below. lra. }
  assert (spec_progress (mkDOMRect 0 500 500) 100 = 0.25) as Hs.
  { unfold spec_progress, clamp. simpl.
    replace ((100 - 0) / (500 - 100)) with 0.25 by lra.
    apply clamp01_inside. lra. }
  repeat split; [simpl; lra | exact Ht | exact Hs | rewrite Ht, Hs; lra].
Qed.

(** C1, amended: on every scroll event with a scrollable distance
    [containerHeight - viewportHeight] that is positive, [onScroll] sets
    the target progress to
    [clamp(-top / (containerHeight - viewportHeight), 0, 1)]. *)
Theorem onScroll_sets_clamped_ratio (rect : DOMRect) (vh : R) (s : Scene) :
  0 < height rect - vh ->
  targetScrollProgress (onScroll (Some rect) vh s).1
  = clamp (- top rect / (height rect - vh)) 0 1.
Proof. intros Hd. rewrite onScroll_scrollable by exact Hd. reflexivity. Qed.

Lemma onScroll_sets_clamped_ratio_witness :
  targetScrollProgress
    (onScroll (Some (mkDOMRect (-100) 500 400)) 100 (mkScene 0 0 None [])).1
  = clamp (- (-100) / (500 - 100)) 0 1.
Proof.
  apply (onScroll_sets_clamped_ratio (mkDOMRect (-100) 500 400) 100
           (mkScene 0 0 None [])).
  simpl. lra.
Defined.

(** C2: in a viewport of height [vh], a container of height [5 vh] at
    [top = -2 vh] gives the progress 0.5; a scrollable container at
    [top = 0] gives 0; and every [top] at or beyond
    [-(containerHeight - viewportHeight)] gives 1. *)
Theorem onScroll_reference_points (vh : R) (s : Scene) :
  0 < vh ->
  (forall b,
     targetScrollProgress
       (onScroll (Some (mkDOMRect (-2 * vh) (5 * vh) b)) vh s).1 = 0.5)
  /\ (forall h b, vh < h ->
        targetScrollProgress (onScroll (Some (mkDOMRect 0 h b)) vh s).1 = 0)
  /\ (forall rect, vh < height rect ->
        top rect <= - (height rect - vh) ->
        targetScrollProgress (onScroll (Some rect) vh s).1 = 1).
Proof.
  intros Hvh. repeat split.
  - intros b. rewrite onScroll_scrollable by (simpl; lra).
    cbn [fst targetScrollProgress top height].
    assert (- (-2 * vh) / (5 * vh - vh) = 1 / 2) as -> by (field; lra).
    rewrite clamp01_inside; lra.
  - intros h b Hh. rewrite onScroll_scrollable by (simpl; lra). simpl.
    apply clamp01_below. unfold Rdiv. rewrite Ropp_0, Rmult_0_l. lra.
  - intros rect Hh Htop. rewrite onScroll_scrollable by lra. simpl.
    apply clamp01_above.
    apply (Rmult_le_reg_r (height rect - vh)); [lra|].
    unfold Rdiv. rewrite Rmult_assoc, Rinv_l by lra. lra.
Qed.

Lemma onScroll_reference_points_witness :
  targetScrollProgress
    (onScroll (Some (mkDOMRect (-2 * 100) (5 * 100) 300)) 100
       (mkScene 0 0 None [])).1 = 0.5
  /\ targetScrollProgress
       (onScroll (Some (mkDOMRect 0 500 500)) 100 (mkScene 0.75 0 None [])).1 = 0
  /\ targetScrollProgress
       (onScroll (Some (mkDOMRect (-450) 500 50)) 100 (mkScene 0 0 None [])).1 = 1.
Proof.
  split; [|split].
  - apply (onScroll_reference_points 100 (mkScene 0 0 None [])). lra.
  - apply (onScroll_reference_points 100 (mkScene 0.75 0 None [])); lra.
  - apply (onScroll_reference_points 100 (mkScene 0 0 None [])); simpl; lra.
Defined.

(** C8: when the scrollable distance [containerHeight - viewportHeight]
    is not positive, [onScroll] evaluates no division and leaves the scene,
    the target progress included, as it was; every division it ever
    evaluates is by a positive distance, and the target changes only when
    the distance is positive. *)
Theorem onScroll_guards_division (container : option DOMRect) (vh : R) (s : Scene) :
  (forall rect, container = Some rect -> height rect - vh <= 0 ->
     divisors (onScroll container vh s).2 = []
     /\ (onScroll container vh s).1 = s)
  /\ (forall d, In d (divisors (onScroll container vh s).2) -> 0 < d)
  /\ (targetScrollProgress (onScroll container vh s).1 <> targetScrollProgress s ->
      exists rect, container = Some rect /\ 0 < height rect - vh).
Proof.
  destruct container as [rect|].
  - destruct (Rlt_dec 0 (height rect - vh)) as [Hd | Hd].
    + rewrite onScroll_scrollable by exact Hd. split; [|split].
      * intros r [= <-] Hr. lra.
      * simpl. intros d [<- | [<- | []]]; exact Hd.
      * intros _. exists rect. split; [reflexivity | exact Hd].
    + rewrite onScroll_short by lra. split; [|split].
      * intros r _ _. split; reflexivity.
      * simpl. intros d [].
      * simpl. intros Hne. contradiction.
  - rewrite onScroll_unmounted. split; [|split].
    + intros rect [=].
    + simpl. intros d [].
    + simpl. intros Hne. contradiction.
Qed.

Lemma onScroll_guards_division_witness :
  divisors (onScroll (Some (mkDOMRect 0 80 80)) 100 (mkScene 0.5 0 None [])).2 = []
  /\ (onScroll (Some (mkDOMRect 0 80 80)) 100 (mkScene 0.5 0 None [])).1
     = mkScene 0.5 0 None [].
Proof.
  apply (onScroll_guards_division (Some (mkDOMRect 0 80 80)) 100
           (mkScene 0.5 0 None [])) with (rect := mkDOMRect 0 80 80).
  - reflexivity.
  - simpl. lra.
Defined.

End ScrollProgress.

(** ** The hero state machine *)

Section Hero.
Import App.

(** *** What the effect and a commit leave alone *)

Lemma scrollJackEffect_heroState (p : Page) :
  heroState (scrollJackEffect p) = heroState p.
Proof.
  unfold scrollJackEffect, setup, cleanup.
  destruct (inputListener p); simpl;
    destruct (Rltb 50 (scrollY p)); simpl; try reflexivity;
    destruct (bool_decide (heroState p = initial)); reflexivity.
Qed.

Lemma scrollJackEffect_showModal (p : Page) :
  showModal (scrollJackEffect p) = showModal p.
Proof.
  unfold scrollJackEffect, setup, cleanup.
  destruct (inputListener p); simpl;
    destruct (Rltb 50 (scrollY p)); simpl; try reflexivity;
    destruct (bool_decide (heroState p = initial)); reflexivity.
Qed.

Lemma scrollJackEffect_timers (p : Page) :
  timers (scrollJackEffect p) = timers p.
Proof.
  unfold scrollJackEffect, setup, cleanup.
  destruct (inputListener p); simpl;
    destruct (Rltb 50 (scrollY p)); simpl; try reflexivity;
    destruct (bool_decide (heroState p = initial)); reflexivity.
Qed.

Lemma rerender_heroState (before after : Page) :
  heroState (rerender before after) = heroState after.
Proof.
  unfold rerender.
  destruct (_ && _); [reflexivity | apply scrollJackEffect_heroState].
Qed.

Lemma rerender_showModal (before after : Page) :
  showModal (rerender before after) = showModal after.
Proof.
  unfold rerender.
  destruct (_ && _); [reflexivity | apply scrollJackEffect_showModal].
Qed.

Lemma rerender_timers (before after : Page) :
  timers (rerender before after) = timers after.
Proof.
  unfold rerender.
  destruct (_ && _); [reflexivity | apply scrollJackEffect_timers].
Qed.

Lemma rerender_same (p : Page) : rerender p p = p.
Proof.
  unfold rerender. rewrite bool_decide_eq_true_2 by reflexivity.
  rewrite Bool.eqb_reflx. reflexivity.
Qed.

(** With the page at the top, the effect registers [handleInput] with the
    committed state. *)
Lemma scrollJackEffect_top (p : Page) :
  scrollY p <= 50 ->
  inputListener (scrollJackEffect p) = Some (showModal p, heroState p)
  /\ overflow (scrollJackEffect p)
     = match heroState p with
       | initial => overflow_hidden
       | _ => match inputListener p with
              | Some _ => overflow_auto
              | None => overflow p
              end
       end.
Proof.
  intros Hy. unfold scrollJackEffect, setup, cleanup.
  destruct (inputListener p); simpl; rewrite (Rltb_false _ _ Hy);
    destruct (heroState p); split; reflexivity.
Qed.

(** Scrolled past 50 px, the effect registers nothing and unlocks. *)
Lemma scrollJackEffect_scrolled (p : Page) :
  50 < scrollY p ->
  inputListener (scrollJackEffect p) = None
  /\ overflow (scrollJackEffect p) = overflow_auto.
Proof.
  intros Hy. unfold scrollJackEffect, setup, cleanup.
  destruct (inputListener p) eqn:Hl; simpl; rewrite (Rltb_true _ _ Hy);
    simpl; split; try reflexivity.
  exact Hl.
Qed.

(** *** Timers *)

Lemma fire_timers (p : Page) (t : Timer) : timers (fire p t) = timers p.
Proof. unfold fire. rewrite rerender_timers. destruct (task t); reflexivity. Qed.

Lemma fire_heroState (p : Page) (t : Timer) :
  heroState (fire p t)
  = match task t with finish_swap => swapped | show_modal => heroState p end.
Proof. unfold fire. rewrite rerender_heroState. destruct (task t); reflexivity. Qed.

Lemma fold_fire_timers (due : list Timer) (p : Page) :
  timers (fold_left fire due p) = timers p.
Proof.
  revert p. induction due as [|t due IH]; intros p; simpl; [reflexivity|].
  rewrite IH. apply fire_timers.
Qed.

Lemma fold_fire_modal_only (due : list Timer) (p : Page) :
  Forall (fun t => task t = show_modal) due ->
  heroState (fold_left fire due p) = heroState p.
Proof.
  revert p. induction due as [|t due IH]; intros p Hall; simpl; [reflexivity|].
  inversion Hall as [|? ? Ht Hrest]; subst.
  rewrite IH by assumption. rewrite fire_heroState, Ht. reflexivity.
Qed.

Lemma tick_timers (p : Page) :
  timers (tick p)
  = List.filter (fun t => negb (is_due t)) (map age (timers p)).
Proof. unfold tick. rewrite fold_fire_timers. reflexivity. Qed.

(** A timer set last, with [k + 1] milliseconds to go, is the last
    callback to run within those [k + 1] milliseconds. *)
Lemma elapse_last_timer (k : nat) :
  forall (p : Page) (ts : list Timer) (t : TimerTask),
    timers p = ts ++ [mkTimer (S k) t] ->
    exists p0, elapse (S k) p = fire p0 (mkTimer 0 t).
Proof.
  induction k as [|k IH]; intros p ts t Hts.
  - simpl. unfold tick. rewrite Hts, map_app, List.filter_app. simpl.
    rewrite fold_left_app. simpl. eexists. reflexivity.
  - change (elapse (S (S k)) p) with (elapse (S k) (tick p)).
    apply (IH _ (List.filter (fun t => negb (is_due t)) (map age ts))).
    rewrite tick_timers, Hts, map_app, List.filter_app. reflexivity.
Qed.

(** The callback of the transition leaves the page [swapped] and
    unlocked, also after the commit that follows it. *)
Lemma fire_finish_swap (p : Page) (n : nat) :
  heroState (fire p (mkTimer n finish_swap)) = swapped
  /\ overflow (fire p (mkTimer n finish_swap)) = overflow_auto.
Proof.
  split; [apply fire_heroState|].
  unfold fire, rerender. simpl.
  destruct (_ && _); [reflexivity|].
  unfold scrollJackEffect, setup, cleanup. simpl.
  destruct (inputListener p); simpl;
    destruct (Rltb 50 (scrollY p)); reflexivity.
Qed.

(** While every pending [finish_swap] timer has more than [ms]
    milliseconds left, [ms] milliseconds change nothing in the hero
    state. *)
Lemma elapse_before_swap (ms : nat) :
  forall p : Page,
    Forall (fun t => task t = finish_swap -> (ms < remaining t)%nat) (timers p) ->
    heroState (elapse ms p) = heroState p.
Proof.
  induction ms as [|ms IH]; intros p Hall; [reflexivity|].
  simpl. rewrite IH.
  - unfold tick. rewrite fold_fire_modal_only; [reflexivity|].
    rewrite List.Forall_forall in *. intros t Ht.
    apply List.filter_In in Ht as [Hin Hdue].
    apply List.in_map_iff in Hin as (t0 & <- & Hin0).
    specialize (Hall t0 Hin0). unfold is_due, age in Hdue. simpl in *.
    destruct (task t0); [reflexivity|].
    specialize (Hall eq_refl). apply Nat.eqb_eq in Hdue. lia.
  - rewrite tick_timers. rewrite List.Forall_forall in *. intros t Ht.
    apply List.filter_In in Ht as [Hin _].
    apply List.in_map_iff in Hin as (t0 & <- & Hin0).
    specialize (Hall t0 Hin0). simpl. intros Hk. specialize (Hall Hk). lia.
Qed.

(** *** Input events *)

(** A wheel event that does not scroll down changes nothing, whatever the
    state of the page. *)
Lemma step_wheel_up (p : Page) (deltaY : R) :
  deltaY <= 0 -> step (Input (wheel deltaY)) p = p.
Proof.
  intros Hd. simpl. destruct (inputListener p) as [[m h]|]; [|reflexivity].
  unfold handleInput. rewrite (Rleb_true _ _ Hd).
  destruct m; [apply rerender_same|].
  destruct (negb _); apply rerender_same.
Qed.

(** With [handleInput] registered for the state [initial] and no modal, a
    downward wheel event or a touch move starts the transition and sets
    the 1500 ms timer. *)
Lemma step_input_starts (p : Page) (e : InputEvent) :
  inputListener p = Some (false, initial) ->
  match e with wheel deltaY => 0 < deltaY | touchmove => True end ->
  heroState (step (Input e) p) = transitioning
  /\ timers (step (Input e) p) = timers p ++ [mkTimer 1500 finish_swap].
Proof.
  intros Hl He. simpl. rewrite Hl.
  rewrite rerender_heroState, rerender_timers.
  unfold handleInput. simpl.
  destruct e as [deltaY|]; [rewrite (Rleb_false _ _ He)|]; split; reflexivity.
Qed.

(** From a page on which the effect has just run in the state [initial],
    at the top and without the modal: the course of the transition. *)
Lemma hero_transition (p : Page) (e : InputEvent) :
  heroState p = initial -> showModal p = false -> scrollY p <= 50 ->
  match e with wheel deltaY => 0 < deltaY | touchmove => True end ->
  let q := step (Input e) (scrollJackEffect p) in
  heroState q = transitioning
  /\ heroState (step (Elapse 1500) q) = swapped
  /\ overflow (step (Elapse 1500) q) = overflow_auto
  /\ (Forall (fun t => task t = show_modal) (timers p) ->
      forall ms, (ms < 1500)%nat ->
        heroState (step (Elapse ms) q) = transitioning).
Proof.
  intros Hh Hm Hy He q.
  destruct (scrollJackEffect_top p Hy) as [Hl _]. rewrite Hh, Hm in Hl.
  destruct (step_input_starts _ e Hl He) as [Hq Hts]. fold q in Hq, Hts.
  rewrite scrollJackEffect_timers in Hts.
  split; [exact Hq|].
  destruct (elapse_last_timer 1499 q _ _ Hts) as [p0 Hp0].
  change (step (Elapse 1500) q) with (elapse 1500 q). rewrite Hp0.
  destruct (fire_finish_swap p0 0) as [H1 H2].
  split; [exact H1|]. split; [exact H2|].
  intros Hmodal ms Hms. simpl. rewrite elapse_before_swap; [exact Hq|].
  rewrite Hts. apply Forall_app. split.
  - eapply Forall_impl; [exact Hmodal|]. simpl. intros t Ht Hk. congruence.
  - constructor; [|constructor]. simpl. intros _. lia.
Qed.

(** The effect leaves the committed states alone, so the page is still
    [initial] when the event arrives. *)
Lemma hero_initial_after_effect (p : Page) :
  heroState p = initial -> heroState (scrollJackEffect p) = initial.
Proof. intros Hh. rewrite scrollJackEffect_heroState. exact Hh. Qed.

(** C4, amended: once the scroll-jacking effect has run in the state
    [initial], at the top of the page (scroll below 50 px) and without
    the modal, so that [handleInput] is registered, a
    wheel event with a positive delta moves the hero to [transitioning]
    and, 1500 ms later, to [swapped] (and not before, when no other
    transition timer is pending); a wheel event with a delta that is zero
    or negative leaves the page, its hero state included, as it is. *)
Theorem hero_wheel_transition (p : Page) (deltaY : R) :
  heroState p = initial -> showModal p = false -> scrollY p < 50 ->
  let q := scrollJackEffect p in
  let q' := step (Input (wheel deltaY)) q in
  heroState q = initial
  /\ (0 < deltaY ->
      heroState q' = transitioning
      /\ heroState (step (Elapse 1500) q') = swapped
      /\ (Forall (fun t => task t = show_modal) (timers p) ->
          forall ms, (ms < 1500)%nat ->
            heroState (step (Elapse ms) q') = transitioning))
  /\ (deltaY <= 0 -> q' = q).
Proof.
  intros Hh Hm Hy q q'. split; [apply hero_initial_after_effect, Hh|]. split.
  - intros Hd.
    destruct (hero_transition p (wheel deltaY) Hh Hm) as (H1 & H2 & _ & H3);
      [lra | exact Hd |].
    split; [exact H1|]. split; [exact H2 | exact H3].
  - intros Hd. apply step_wheel_up, Hd.
Qed.

Lemma hero_wheel_transition_witness :
  let p := mkPage initial false 0 overflow_unset None [mkTimer 500 show_modal] in
  heroState (step (Input (wheel 120)) (scrollJackEffect p)) = transitioning
  /\ heroState (step (Elapse 1500)
                  (step (Input (wheel 120)) (scrollJackEffect p))) = swapped
  /\ step (Input (wheel (-120))) (scrollJackEffect p) = scrollJackEffect p.
Proof.
  intros p.
  assert (scrollY p < 50) as Hy by (simpl; lra).
  destruct (hero_wheel_transition p 120 eq_refl eq_refl Hy) as (_ & Hdown & _).
  destruct (hero_wheel_transition p (-120) eq_refl eq_refl Hy) as (_ & _ & Hup).
  destruct Hdown as (H1 & H2 & _); [lra|].
  split; [exact H1|]. split; [exact H2|]. apply Hup. lra.
Defined.

(** *** Scroll events *)

(** The hero state after a scroll event, in every case. *)
Lemma step_scroll_heroState (p : Page) (y : R) :
  heroState (step (Scroll y) p)
  = if Rltb y 50 && bool_decide (heroState p = swapped)
    then initial else heroState p.
Proof.
  simpl. rewrite rerender_heroState. unfold handleScrollReset. simpl.
  destruct (Rltb y 50 && bool_decide (heroState p = swapped)); reflexivity.
Qed.

(** C9: a scroll event that finds the page [swapped] and scrolled to less
    than 50 px resets the hero to [initial]; at 50 px or more the page
    stays [swapped]; and from a state other than [swapped] a scroll event
    never changes the hero state, so it never resets it. *)
Theorem scroll_reset_only_from_swapped (p : Page) (y : R) :
  (heroState p = swapped -> y < 50 ->
     heroState (step (Scroll y) p) = initial)
  /\ (heroState p = swapped -> 50 <= y ->
        heroState (step (Scroll y) p) = swapped)
  /\ (heroState p <> swapped ->
        heroState (step (Scroll y) p) = heroState p).
Proof.
  rewrite step_scroll_heroState. split; [|split].
  - intros Hs Hy. rewrite (Rltb_true _ _ Hy), Hs. reflexivity.
  - intros Hs Hy. rewrite (Rltb_false _ _ Hy), Hs. reflexivity.
  - intros Hs. rewrite bool_decide_eq_false_2 by exact Hs.
    rewrite andb_false_r. reflexivity.
Qed.

Lemma scroll_reset_only_from_swapped_witness :
  heroState (step (Scroll 10)
               (mkPage swapped false 300 overflow_auto None [])) = initial
  /\ heroState (step (Scroll 10)
                  (mkPage transitioning false 0 overflow_auto
                     (Some (false, transitioning))
                     [mkTimer 700 finish_swap])) = transitioning.
Proof.
  split.
  - apply (scroll_reset_only_from_swapped
             (mkPage swapped false 300 overflow_auto None []) 10);
      [reflexivity | lra].
  - apply (scroll_reset_only_from_swapped
             (mkPage transitioning false 0 overflow_auto
                (Some (false, transitioning)) [mkTimer 700 finish_swap]) 10).
    discriminate.
Defined.

(** *** A session *)

(** The page is opened at the top: it starts [initial], locked, with the
    listeners in place. *)
Lemma mount_top (y : R) :
  y <= 50 ->
  heroState (mount y) = initial
  /\ overflow (mount y) = overflow_hidden
  /\ inputListener (mount y) = Some (false, initial)
  /\ timers (mount y) = [mkTimer 500 show_modal].
Proof.
  intros Hy. unfold mount. rewrite (Rltb_false _ _ Hy).
  unfold scrollJackEffect, setup, cleanup. simpl.
  rewrite (Rltb_false _ _ Hy). simpl. repeat split.
Qed.

(** Opened further down, it starts [swapped], unlocked, without them. *)
Lemma mount_scrolled (y : R) :
  50 < y ->
  heroState (mount y) = swapped
  /\ overflow (mount y) = overflow_auto
  /\ inputListener (mount y) = None.
Proof.
  intros Hy. unfold mount. rewrite (Rltb_true _ _ Hy).
  unfold scrollJackEffect, setup, cleanup. simpl.
  rewrite (Rltb_true _ _ Hy). simpl. repeat split.
Qed.

(** Opened at the top: wheel up, wheel down, wait, scroll away, scroll
    back.  The hero goes through its whole cycle. *)
Example hero_cycle :
  let p0 := mount 0 in
  let p1 := step (Input (wheel (-40))) p0 in
  let p2 := step (Input (wheel 40)) p1 in
  let p3 := step (Elapse 1500) p2 in
  let p4 := step (Scroll 400) p3 in
  let p5 := step (Scroll 20) p4 in
  map heroState [p0; p1; p2; p3; p4; p5]
  = [initial; initial; transitioning; swapped; swapped; initial].
Proof.
  cbv zeta.
  rewrite (step_wheel_up (mount 0) (-40)) by lra.
  set (base := mkPage initial false 0 overflow_unset None [mkTimer 500 show_modal]).
  assert (mount 0 = scrollJackEffect base) as E0.
  { unfold mount, base. rewrite Rltb_false by lra. reflexivity. }
  destruct (hero_transition base (wheel 40) eq_refl eq_refl) as (H2 & H3 & _);
    [simpl; lra | lra |].
  cbv zeta in H2, H3. rewrite <- E0 in H2, H3.
  assert (heroState (mount 0) = initial) as H0 by (apply mount_top; lra).
  cbn [map].
  rewrite !step_scroll_heroState, H0, H2, H3.
  rewrite (Rltb_false 400 50), (Rltb_true 20 50) by lra.
  reflexivity.
Qed.

(** *** The listeners follow the effect, not the scroll position *)

Lemma fire_scrollY (p : Page) (t : Timer) : scrollY (fire p t) = scrollY p.
Proof.
  unfold fire, rerender. destruct (_ && _).
  - destruct (task t); reflexivity.
  - unfold scrollJackEffect, setup, cleanup.
    destruct (task t); simpl;
      destruct (inputListener p); simpl;
      destruct (Rltb 50 (scrollY p)); simpl; try reflexivity;
      destruct (bool_decide _); reflexivity.
Qed.

Lemma fold_fire_scrollY (due : list Timer) (p : Page) :
  scrollY (fold_left fire due p) = scrollY p.
Proof.
  revert p. induction due as [|t due IH]; intros p; simpl; [reflexivity|].
  rewrite IH. apply fire_scrollY.
Qed.

Lemma elapse_scrollY (ms : nat) : forall p, scrollY (elapse ms p) = scrollY p.
Proof.
  induction ms as [|ms IH]; intros p; [reflexivity|].
  simpl. rewrite IH. unfold tick. rewrite fold_fire_scrollY. reflexivity.
Qed.

Lemma step_scroll_not_swapped (p : Page) (y : R) :
  heroState p <> swapped -> step (Scroll y) p = set_scrollY y p.
Proof.
  intros Hs. simpl. unfold handleScrollReset. simpl.
  rewrite (bool_decide_eq_false_2 _ Hs), andb_false_r. apply rerender_same.
Qed.

Lemma step_input_unregistered (p : Page) (e : InputEvent) :
  inputListener p = None -> step (Input e) p = p.
Proof. intros Hl. simpl. rewrite Hl. reflexivity. Qed.

(** The effect reads the scroll position only when it runs.  If the page
    is moved down while [initial] (scripted scrolling, or the browser
    restoring a position) and the modal is opened and closed there, the
    effect has unregistered [handleInput]; back at the top, with no modal,
    a downward wheel event finds no listener and the hero stays
    [initial]. *)
Example hero_listener_follows_effect :
  let p := run [Scroll 400; Elapse 500; CloseModal; Scroll 0] (mount 0) in
  heroState p = initial /\ showModal p = false /\ scrollY p = 0
  /\ step (Input (wheel 40)) p = p.
Proof.
  unfold run. cbn [fold_left].
  destruct (mount_top 0) as (Hh0 & _ & _ & Ht0); [lra|].
  rewrite (step_scroll_not_swapped (mount 0) 400) by (rewrite Hh0; discriminate).
  set (a := set_scrollY 400 (mount 0)).
  change (step (Elapse 500) a) with (elapse 500 a).
  destruct (elapse_last_timer 499 a [] show_modal Ht0) as [p0 Hp0].
  assert (heroState (elapse 500 a) = initial) as Hh.
  { rewrite elapse_before_swap; [exact Hh0|].
    change (timers a) with (timers (mount 0)). rewrite Ht0.
    constructor; [discriminate | constructor]. }
  assert (showModal (elapse 500 a) = true) as Hm.
  { rewrite Hp0. unfold fire. rewrite rerender_showModal. reflexivity. }
  assert (scrollY (elapse 500 a) = 400) as Hy by apply elapse_scrollY.
  clear Hp0. generalize dependent (elapse 500 a). intros b Hh Hm Hy.
  assert (step CloseModal b = scrollJackEffect (set_showModal false b)) as Ec.
  { simpl. unfold rerender. simpl. rewrite Hm, andb_false_r. reflexivity. }
  rewrite Ec. clear Ec.
  assert (heroState (scrollJackEffect (set_showModal false b)) = initial) as Hhc
    by (rewrite scrollJackEffect_heroState; exact Hh).
  assert (inputListener (scrollJackEffect (set_showModal false b)) = None) as Hlc
    by (apply scrollJackEffect_scrolled; simpl; lra).
  assert (showModal (scrollJackEffect (set_showModal false b)) = false) as Hmc
    by (rewrite scrollJackEffect_showModal; reflexivity).
  generalize dependent (scrollJackEffect (set_showModal false b)).
  intros c Hhc Hlc Hmc.
  rewrite (step_scroll_not_swapped c 0) by (rewrite Hhc; discriminate).
  repeat split; try assumption.
  apply step_input_unregistered. exact Hlc.
Qed.

(** C4, refuted as stated: on the page reached from the first render at
    the top by scrolling to 400 px, waiting 500 ms, closing the modal and
    scrolling back to the top, the hero is [initial], no modal is shown
    and the scroll is 0, yet a downward wheel event does not move the
    hero to [transitioning]: the effect unregistered [handleInput] when
    it ran at 400 px and has not run since. *)
Lemma hero_wheel_ignored_without_listener :
  exists (evs : list Event) (deltaY : R),
    let p := run evs (mount 0) in
    heroState p = initial /\ showModal p = false /\ scrollY p < 50
    /\ 0 < deltaY
    /\ heroState (step (Input (wheel deltaY)) p) <> transitioning.
Proof.
  exists [Scroll 400; Elapse 500; CloseModal; Scroll 0], 40.
  destruct hero_listener_follows_effect as (Hh & Hm & Hy & Hstep).
  cbv zeta. rewrite Hstep, Hh, Hm, Hy.
  repeat split; try lra. discriminate.
Qed.

End Hero.

(** ** The pointer brush *)

Section Brush.
Import PixelBackground.

(** The 29 offsets of the radius-3 brush, in the order of the loops. *)
Lemma brushOffsets_3 :
  brushOffsets 3
  = [ (0, -3); (-2, -2); (-1, -2); (0, -2); (1, -2); (2, -2);
      (-2, -1); (-1, -1); (0, -1); (1, -1); (2, -1);
      (-3, 0); (-2, 0); (-1, 0); (0, 0); (1, 0); (2, 0); (3, 0);
      (-2, 1); (-1, 1); (0, 1); (1, 1); (2, 1);
      (-2, 2); (-1, 2); (0, 2); (1, 2); (2, 2); (0, 3) ]%Z.
Proof. vm_compute. reflexivity. Qed.

Lemma brushOffsets_spec (radius dx dy : Z) :
  In (dx, dy) (brushOffsets radius)
  <-> (- radius <= dx <= radius)%Z /\ (- radius <= dy <= radius)%Z
      /\ (dx * dx + dy * dy <= radius * radius)%Z.
Proof.
  unfold brushOffsets. rewrite in_flat_map. split.
  - intros (y & Hy & Hin). apply in_flat_map in Hin as (x & Hx & Hin).
    apply list_elem_of_In, elem_of_seqZ in Hy.
    apply list_elem_of_In, elem_of_seqZ in Hx.
    destruct (bool_decide_reflect (x * x + y * y <= radius * radius)%Z) as [Hc|Hc];
      simpl in Hin; [|contradiction].
    destruct Hin as [[= <- <-]|[]]. lia.
  - intros (Hx & Hy & Hc). exists dy. split.
    { apply list_elem_of_In, elem_of_seqZ. lia. }
    apply in_flat_map. exists dx. split.
    { apply list_elem_of_In, elem_of_seqZ. lia. }
    rewrite bool_decide_eq_true_2 by exact Hc. left. reflexivity.
Qed.

(** For the radius 3 the circle alone decides. *)
Lemma brushOffsets_3_spec (dx dy : Z) :
  In (dx, dy) (brushOffsets 3) <-> (dx * dx + dy * dy <= 9)%Z.
Proof.
  rewrite brushOffsets_spec. split; [intros (_ & _ & H); exact H|].
  intros H. repeat split; try exact H; nia.
Qed.

Lemma brushOffsets_3_NoDup : NoDup (brushOffsets 3).
Proof. rewrite brushOffsets_3. apply (bool_decide_unpack _). vm_compute. exact I. Qed.

(** The [set] calls over any list of distinct offsets: the call number
    [i] stores draw number [k + i] at its cell, and every other cell keeps
    what it had. *)
Lemma stroke_fold (gridX gridY : Z) (draws : nat -> R) (l : list (Z * Z)) :
  forall (m : TouchedPixels) (k : nat),
    NoDup l ->
    let r := fold_left
               (fun (acc : TouchedPixels * nat) (d : Z * Z) =>
                  (<[ ((gridX + d.1)%Z, (gridY + d.2)%Z) := draws acc.2 ]> acc.1,
                   S acc.2)) l (m, k) in
    r.2 = (k + length l)%nat
    /\ (forall i d, l !! i = Some d ->
          r.1 !! ((gridX + d.1)%Z, (gridY + d.2)%Z) = Some (draws (k + i)%nat))
    /\ (forall x y, ~ In ((x - gridX)%Z, (y - gridY)%Z) l ->
          r.1 !! (x, y) = m !! (x, y)).
Proof.
  induction l as [|d l IH]; intros m k Hnd; simpl.
  - split; [lia|]. split; [intros i d [=]|reflexivity].
  - apply NoDup_cons in Hnd as [Hd Hnd].
    destruct (IH (<[ ((gridX + d.1)%Z, (gridY + d.2)%Z) := draws k ]> m) (S k) Hnd)
      as (Hk & Hin & Hout).
    cbv zeta in Hk, Hin, Hout. simpl in Hk, Hin, Hout.
    split; [rewrite Hk; lia|]. split.
    + intros [|i] d' Hi; simpl in Hi.
      * injection Hi as <-. rewrite Hout.
        -- rewrite Nat.add_0_r. apply lookup_insert_eq.
        -- intros Hc. apply Hd, list_elem_of_In.
           destruct d as [dx dy]; simpl in Hc.
           replace (gridX + dx - gridX)%Z with dx in Hc by lia.
           replace (gridY + dy - gridY)%Z with dy in Hc by lia. exact Hc.
      * rewrite (Hin i d' Hi). f_equal. f_equal. lia.
    + intros x y Hn. rewrite Hout by tauto.
      apply lookup_insert_ne. intros [= Hx Hy]. apply Hn. left.
      destruct d as [dx dy]; simpl in *. f_equal; lia.
Qed.

(** One brush stroke, cell by cell. *)
Lemma stroke_lookup (gridX gridY : Z) (draws : nat -> R) (m : TouchedPixels)
    (x y : Z) :
  ((x - gridX) * (x - gridX) + (y - gridY) * (y - gridY) <= 9 ->
     exists k, (k < 29)%nat /\ (stroke gridX gridY draws m).1 !! (x, y) = Some (draws k))%Z
  /\ (9 < (x - gridX) * (x - gridX) + (y - gridY) * (y - gridY) ->
        (stroke gridX gridY draws m).1 !! (x, y) = m !! (x, y))%Z.
Proof.
  destruct (stroke_fold gridX gridY draws (brushOffsets 3) m 0 brushOffsets_3_NoDup)
    as (_ & Hin & Hout).
  unfold stroke. generalize dependent (fold_left
    (fun (acc : TouchedPixels * nat) (d : Z * Z) =>
       (<[ ((gridX + d.1)%Z, (gridY + d.2)%Z) := draws acc.2 ]> acc.1, S acc.2))
    (brushOffsets 3) (m, 0%nat)).
  intros r Hin Hout. split; intros Hc.
  - apply brushOffsets_3_spec, list_elem_of_In, list_elem_of_lookup in Hc as [i Hi].
    exists i. split.
    + apply lookup_lt_Some in Hi. rewrite brushOffsets_3 in Hi. exact Hi.
    + specialize (Hin i _ Hi). cbn [fst snd] in Hin.
      replace (gridX + (x - gridX))%Z with x in Hin by lia.
      replace (gridY + (y - gridY))%Z with y in Hin by lia. exact Hin.
  - apply Hout. rewrite brushOffsets_3_spec. lia.
Qed.

(** The number of [Math.random()] calls of a stroke. *)
Lemma stroke_calls (gridX gridY : Z) (draws : nat -> R) (m : TouchedPixels) :
  (stroke gridX gridY draws m).2 = 29%nat.
Proof.
  destruct (stroke_fold gridX gridY draws (brushOffsets 3) m 0 brushOffsets_3_NoDup)
    as (Hk & _). unfold stroke. rewrite Hk, brushOffsets_3. reflexivity.
Qed.

(** The cell at offset number [k] of the brush gets draw number [k]. *)
Lemma stroke_lookup_index (gridX gridY : Z) (draws : nat -> R)
    (m : TouchedPixels) (x y : Z) :
  ((x - gridX) * (x - gridX) + (y - gridY) * (y - gridY) <= 9)%Z ->
  exists k,
    brushOffsets 3 !! k = Some ((x - gridX)%Z, (y - gridY)%Z)
    /\ (stroke gridX gridY draws m).1 !! (x, y) = Some (draws k).
Proof.
  intros Hc.
  destruct (stroke_fold gridX gridY draws (brushOffsets 3) m 0 brushOffsets_3_NoDup)
    as (_ & Hin & _).
  unfold stroke. generalize dependent (fold_left
    (fun (acc : TouchedPixels * nat) (d : Z * Z) =>
       (<[ ((gridX + d.1)%Z, (gridY + d.2)%Z) := draws acc.2 ]> acc.1, S acc.2))
    (brushOffsets 3) (m, 0%nat)).
  intros r Hin.
  apply brushOffsets_3_spec, list_elem_of_In, list_elem_of_lookup in Hc as [i Hi].
  exists i. split; [exact Hi|].
  specialize (Hin i _ Hi). cbn [fst snd] in Hin.
  replace (gridX + (x - gridX))%Z with x in Hin by lia.
  replace (gridY + (y - gridY))%Z with y in Hin by lia. exact Hin.
Qed.

(** X1: a mouse move over the canvas makes 29 calls of [Math.random()],
    one for each cell within distance 3 of the cell under the pointer:
    the cell whose offset comes [k]-th in the order of the two loops gets
    the result of call number [k], the 29 offsets being distinct; every
    other cell keeps its entry, and the scroll ref is not touched.
    Without a canvas nothing happens. *)
Theorem handleMouseMove_paints_disc (rect : CanvasRect) (clientX clientY : R)
    (draws : nat -> R) (bg : Background) (x y : Z) :
  let g := pointerCell rect clientX clientY in
  let bg' := handleMouseMove (Some rect) clientX clientY draws bg in
  let d2 := ((x - g.1) * (x - g.1) + (y - g.2) * (y - g.2))%Z in
  scrollRef bg' = scrollRef bg
  /\ ((d2 <= 9)%Z ->
      exists k,
        brushOffsets 3 !! k = Some ((x - g.1)%Z, (y - g.2)%Z)
        /\ touchedPixels bg' !! (x, y) = Some (draws k))
  /\ ((9 < d2)%Z -> touchedPixels bg' !! (x, y) = touchedPixels bg !! (x, y))
  /\ NoDup (brushOffsets 3)
  /\ length (brushOffsets 3) = 29%nat
  /\ (stroke g.1 g.2 draws (touchedPixels bg)).2 = 29%nat
  /\ handleMouseMove None clientX clientY draws bg = bg.
Proof.
  intros g bg' d2. unfold bg', handleMouseMove.
  destruct (pointerCell rect clientX clientY) as [gridX gridY] eqn:Hg.
  subst g d2. cbn [fst snd scrollRef touchedPixels].
  destruct (stroke_lookup gridX gridY draws (touchedPixels bg) x y) as [_ Hout].
  split; [reflexivity|].
  split; [apply stroke_lookup_index|]. split; [exact Hout|].
  split; [apply brushOffsets_3_NoDup|].
  split; [rewrite brushOffsets_3; reflexivity|].
  split; [apply stroke_calls | reflexivity].
Qed.

Lemma stroke_keeps_keys (gridX gridY : Z) (draws : nat -> R)
    (m : TouchedPixels) (key : Z * Z) :
  is_Some (m !! key) -> is_Some ((stroke gridX gridY draws m).1 !! key).
Proof.
  destruct key as [x y]. intros Hm.
  destruct (stroke_lookup gridX gridY draws m x y) as [Hin Hout].
  destruct (Z_le_gt_dec
              ((x - gridX) * (x - gridX) + (y - gridY) * (y - gridY)) 9) as [Hc|Hc].
  - destruct (Hin Hc) as (k & _ & ->). eauto.
  - rewrite Hout by lia. exact Hm.
Qed.

Lemma handle_keeps_keys (ev : Event) (bg : Background) :
  dom (touchedPixels bg) ⊆ dom (touchedPixels (handle ev bg)).
Proof.
  intros key Hk. apply elem_of_dom in Hk. apply elem_of_dom.
  destruct ev as [y | [rect|] cx cy draws]; [exact Hk | | exact Hk].
  cbn [handle handleMouseMove].
  destruct (pointerCell rect cx cy) as [gridX gridY].
  cbn [touchedPixels]. apply stroke_keeps_keys, Hk.
Qed.

(** X2: no event ever removes a touched cell: whatever the sequence of
    scroll and mouse events, every cell touched before is touched
    after. *)
Theorem touched_cells_persist (evs : list Event) (bg : Background) :
  dom (touchedPixels bg) ⊆ dom (touchedPixels (handleAll evs bg)).
Proof.
  revert bg. induction evs as [|ev evs IH]; intros bg; [reflexivity|].
  simpl. etransitivity; [apply (handle_keeps_keys ev)|apply IH].
Qed.

Lemma handle_unit_intensities (ev : Event) (bg : Background) :
  unit_draws ev ->
  map_Forall (fun _ v => 0 <= v < 1) (touchedPixels bg) ->
  map_Forall (fun _ v => 0 <= v < 1) (touchedPixels (handle ev bg)).
Proof.
  intros Hd Hbg [x y] v.
  destruct ev as [s | [rect|] cx cy draws]; [apply Hbg | | apply Hbg].
  cbn [handle handleMouseMove].
  destruct (pointerCell rect cx cy) as [gridX gridY].
  cbn [touchedPixels].
  destruct (stroke_lookup gridX gridY draws (touchedPixels bg) x y) as [Hin Hout].
  destruct (Z_le_gt_dec
              ((x - gridX) * (x - gridX) + (y - gridY) * (y - gridY)) 9) as [Hc|Hc].
  - destruct (Hin Hc) as (k & _ & ->). intros [= <-]. apply Hd.
  - rewrite Hout by lia. apply Hbg.
Qed.

(** X3: as long as [Math.random()] returns numbers in [0, 1), every
    intensity stored in the map, after any sequence of events from the
    empty map, lies in [0, 1). *)
Theorem touched_intensities_in_unit_interval (evs : list Event) :
  Forall unit_draws evs ->
  map_Forall (fun _ v => 0 <= v < 1)
    (touchedPixels (handleAll evs newBackground)).
Proof.
  assert (forall bg, Forall unit_draws evs ->
            map_Forall (fun _ v => 0 <= v < 1) (touchedPixels bg) ->
            map_Forall (fun _ v => 0 <= v < 1) (touchedPixels (handleAll evs bg)))
    as Hgen.
  { induction evs as [|ev evs IH]; intros bg Hall Hbg; [exact Hbg|].
    inversion Hall as [|? ? Hev Hrest]; subst. simpl.
    apply IH; [exact Hrest|]. apply handle_unit_intensities; assumption. }
  intros Hall. apply Hgen; [exact Hall|]. apply map_Forall_empty.
Qed.

Lemma touched_intensities_in_unit_interval_witness :
  map_Forall (fun _ v => 0 <= v < 1)
    (touchedPixels
       (handleAll [Scrolled 120;
                   MouseMoved (Some (mkCanvasRect 0 0)) 30 30 (fun _ => 0.5)]
          newBackground)).
Proof.
  apply touched_intensities_in_unit_interval.
  constructor; [exact I|]. constructor; [|constructor].
  intros k. lra.
Defined.

(** *** What a frame paints *)

Lemma palette_at_In (i : Z) (c : string) : palette_at i = Some c -> In c palette.
Proof.
  unfold palette_at. destruct (i <? 0)%Z; [discriminate|].
  intros H. apply list_elem_of_In. eapply list_elem_of_lookup_2, H.
Qed.

(** The colour chosen for a cell that is painted is a palette colour,
    whatever the index: an index outside the palette falls back to the
    third colour. *)
Lemma renderCell_fill_palette (touched : TouchedPixels) (currentScroll : R)
    (x y : Z) (c : string) :
  fill (renderCell touched currentScroll x y) = Some c -> In c palette.
Proof.
  unfold renderCell. cbn [fill colorIndex].
  destruct (_ || _); [|discriminate].
  destruct (palette_at _) as [c'|] eqn:Hp.
  - intros [= <-]. eapply palette_at_In, Hp.
  - apply palette_at_In.
Qed.

(** A touched cell is painted, whatever its index. *)
Lemma renderCell_touched_painted (touched : TouchedPixels) (currentScroll : R)
    (x y : Z) :
  is_Some (touched !! (x, y)) ->
  is_Some (fill (renderCell touched currentScroll x y)).
Proof.
  intros Hk. unfold renderCell. cbn [fill colorIndex].
  rewrite (bool_decide_eq_true_2 _ Hk), orb_true_r.
  destruct (palette_at _); [eauto|]. eexists. reflexivity.
Qed.

Lemma render_cell_rect (touched : TouchedPixels)
    (currentScroll innerWidth innerHeight : R) (x y : Z) (c : string) :
  (0 <= x < Zceil (innerWidth / 12))%Z ->
  (0 <= y < Zceil (innerHeight / 12))%Z ->
  fill (renderCell touched currentScroll x y) = Some c ->
  In (mkFillRect c (IZR (x * 12)) (IZR (y * 12)) 11 11)
     (render touched currentScroll innerWidth innerHeight).
Proof.
  intros Hx Hy Hc. unfold render. right.
  apply in_flat_map. exists y. split.
  { apply list_elem_of_In, elem_of_seqZ. unfold cellSize. lia. }
  apply in_flat_map. exists x. split.
  { apply list_elem_of_In, elem_of_seqZ. unfold cellSize. lia. }
  rewrite Hc. left. reflexivity.
Qed.

(** X4: after a mouse move over the canvas, every cell of the brush that
    lies in the grid of the window is painted by the next frame, in a
    palette colour, whatever the scroll position and the intensities
    drawn. *)
Theorem brushed_cells_are_painted (rect : CanvasRect) (clientX clientY : R)
    (draws : nat -> R) (bg : Background) (innerWidth innerHeight : R)
    (x y : Z) :
  let g := pointerCell rect clientX clientY in
  ((x - g.1) * (x - g.1) + (y - g.2) * (y - g.2) <= 9)%Z ->
  (0 <= x < Zceil (innerWidth / 12))%Z ->
  (0 <= y < Zceil (innerHeight / 12))%Z ->
  exists c,
    In c palette
    /\ In (mkFillRect c (IZR (x * 12)) (IZR (y * 12)) 11 11)
          (renderFrame (handleMouseMove (Some rect) clientX clientY draws bg)
             innerWidth innerHeight).
Proof.
  intros g Hd Hx Hy.
  assert (exists k,
            touchedPixels (handleMouseMove (Some rect) clientX clientY draws bg)
              !! (x, y) = Some (draws k)) as [k Hk].
  { unfold handleMouseMove. subst g.
    destruct (pointerCell rect clientX clientY) as [gridX gridY].
    cbn [fst snd touchedPixels] in *.
    destruct (stroke_lookup gridX gridY draws (touchedPixels bg) x y) as [Hin _].
    destruct (Hin Hd) as (k & _ & Hk). exists k. exact Hk. }
  set (bg' := handleMouseMove (Some rect) clientX clientY draws bg) in *.
  destruct (renderCell_touched_painted (touchedPixels bg') (scrollRef bg') x y)
    as [c Hc]; [eauto|].
  exists c. split; [eapply renderCell_fill_palette, Hc|].
  unfold renderFrame. apply render_cell_rect; assumption.
Qed.

Lemma brushed_cells_are_painted_witness :
  exists c,
    In c palette
    /\ In (mkFillRect c (IZR (1 * 12)) (IZR (2 * 12)) 11 11)
          (renderFrame
             (handleMouseMove (Some (mkCanvasRect 0 0)) 30 30 (fun _ => 0.5)
                newBackground) 1280 720).
Proof.
  apply (brushed_cells_are_painted (mkCanvasRect 0 0) 30 30 (fun _ => 0.5)
           newBackground 1280 720 1 2).
  - assert (pointerCell (mkCanvasRect 0 0) 30 30 = (2, 2)%Z) as ->.
    { unfold pointerCell, cellSize. cbn [rect_left rect_top].
      rewrite (Zfloor_eq 2) by lra. reflexivity. }
    cbn [fst snd]. lia.
  - assert (IZR 106 < 1280 / 12) as H by lra.
    pose proof (Zceil_bound (1280 / 12)) as Hb.
    assert (IZR 106 < IZR (Zceil (1280 / 12))) as H' by lra.
    apply lt_IZR in H'. lia.
  - assert (IZR 59 < 720 / 12) as H by lra.
    pose proof (Zceil_bound (720 / 12)) as Hb.
    assert (IZR 59 < IZR (Zceil (720 / 12))) as H' by lra.
    apply lt_IZR in H'. lia.
Defined.

(** X5: a frame first clears the canvas with the base colour, and then
    fills only 11 x 11 squares at grid positions of the window, each in
    one of the eleven palette colours. *)
Theorem render_paints_grid_in_palette (touched : TouchedPixels)
    (currentScroll innerWidth innerHeight : R) :
  exists cells,
    render touched currentScroll innerWidth innerHeight
    = mkFillRect "#f8fafc" 0 0 innerWidth innerHeight :: cells
    /\ Forall (fun r =>
          exists x y,
            (0 <= x < Zceil (innerWidth / 12))%Z
            /\ (0 <= y < Zceil (innerHeight / 12))%Z
            /\ fill (renderCell touched currentScroll x y) = Some (fillStyle r)
            /\ In (fillStyle r) palette
            /\ r = mkFillRect (fillStyle r) (IZR (x * 12)) (IZR (y * 12)) 11 11)
        cells.
Proof.
  unfold render. eexists. split; [reflexivity|].
  apply List.Forall_forall. intros r Hin.
  apply in_flat_map in Hin as (y & Hy & Hin).
  apply in_flat_map in Hin as (x & Hx & Hin).
  apply list_elem_of_In, elem_of_seqZ in Hy.
  apply list_elem_of_In, elem_of_seqZ in Hx.
  destruct (fill (renderCell touched currentScroll x y)) as [c|] eqn:Hc;
    [|contradiction].
  destruct Hin as [<- | []]. exists x, y. cbn [fillStyle].
  split; [unfold cellSize in Hx; lia|]. split; [unfold cellSize in Hy; lia|].
  split; [exact Hc|]. split; [eapply renderCell_fill_palette, Hc | reflexivity].
Qed.

(** The index of an untouched cell in terms of its noise. *)
Lemma untouchedIndex_bounds (noiseVal : R) :
  IZR (untouchedIndex noiseVal) <= noiseVal * 16.5
  /\ noiseVal * 16.5 < IZR (untouchedIndex noiseVal) + 1.
Proof.
  unfold untouchedIndex. rewrite palette_length_11.
  replace (noiseVal * 11 * 1.5) with (noiseVal * 16.5) by lra.
  apply Zfloor_bound.
Qed.

Lemma untouched_cell_cases (touched : TouchedPixels) (currentScroll : R)
    (x y : Z) :
  touched !! (x, y) = None ->
  let noiseVal :=
    pseudoRandom (IZR x) (IZR y + IZR (Zfloor (currentScroll / 4))) in
  let cell := renderCell touched currentScroll x y in
  (0 <= colorIndex cell <= 10)%Z
  /\ (fill cell = None <-> noiseVal < 4 / 33 \/ 2 / 3 <= noiseVal)
  /\ (forall c, fill cell = Some c ->
        (2 <= colorIndex cell)%Z
        /\ palette !! Z.to_nat (colorIndex cell) = Some c).
Proof.
  intros Hk noiseVal cell.
  destruct (pseudoRandom_range (IZR x) (IZR y + IZR (Zfloor (currentScroll / 4))))
    as [Hn0 Hn1]. fold noiseVal in Hn0, Hn1.
  destruct (untouchedIndex_bounds noiseVal) as [Hlo Hhi].
  assert (colorIndex cell = guardIndex (untouchedIndex noiseVal)) as Hi.
  { unfold cell, renderCell. rewrite Hk. reflexivity. }
  assert (fill cell
          = if (1 <? colorIndex cell)%Z
            then match palette_at (colorIndex cell) with
                 | Some c => Some c
                 | None => palette_at 2
                 end
            else None) as Hf.
  { unfold cell, renderCell. rewrite Hk. cbn [fill colorIndex].
    rewrite bool_decide_eq_false_2 by (intros [? [=]]).
    rewrite orb_false_r. reflexivity. }
  set (u := untouchedIndex noiseVal) in *.
  assert (0 <= u <= 16)%Z as Hu.
  { split.
    - assert (IZR (-1) < IZR u) as H by (simpl; lra). apply lt_IZR in H. lia.
    - assert (IZR u < IZR 17) as H by (simpl; lra). apply lt_IZR in H. lia. }
  unfold guardIndex in Hi. rewrite palette_length_11 in Hi.
  destruct (Z.geb_spec u 11) as [Hge|Hlt].
  - (* wrapped to 0 *)
    rewrite Hf, Hi. cbn. split; [lia|]. split.
    + split; [intros _|reflexivity]. right.
      assert (IZR 11 <= IZR u) as H by (apply IZR_le; lia). simpl in H. lra.
    + intros c [=].
  - rewrite Hf, Hi. split; [lia|].
    destruct (Z.ltb_spec 1 u) as [H1|H1].
    + assert (exists k, (2 <= k < 11)%nat /\ u = Z.of_nat k) as (k & Hk11 & Hku).
      { exists (Z.to_nat u). lia. }
      assert (IZR 2 <= IZR u) as H2 by (apply IZR_le; lia).
      assert (IZR u <= IZR 10) as H10 by (apply IZR_le; lia).
      simpl in H2, H10.
      split.
      * split; [|intros [H|H]; lra].
        rewrite Hku. clear -Hk11.
        do 11 (destruct k as [|k]; [try lia; discriminate|]). lia.
      * intros c Hc. split; [lia|].
        rewrite Hku in *. rewrite Nat2Z.id. clear -Hk11 Hc.
        do 11 (destruct k as [|k]; [try lia; exact Hc|]). lia.
    + split.
      * split; [intros _|reflexivity]. left.
        assert (IZR u <= IZR 1) as H by (apply IZR_le; lia). simpl in H. lra.
      * intros c [=].
Qed.

(** X6: a cell that was never touched gets an index in 0..10; it is left
    unpainted exactly when its noise is below 4/33 or at least 2/3, and
    when it is painted it is never in one of the two background shades
    (the colour is the palette entry of its index, which is 2 or more). *)
Theorem untouched_cell_paint (touched : TouchedPixels) (currentScroll : R)
    (x y : Z) :
  touched !! (x, y) = None ->
  let noiseVal :=
    pseudoRandom (IZR x) (IZR y + IZR (Zfloor (currentScroll / 4))) in
  let cell := renderCell touched currentScroll x y in
  (0 <= colorIndex cell <= 10)%Z
  /\ (fill cell = None <-> noiseVal < 4 / 33 \/ 2 / 3 <= noiseVal)
  /\ (forall c, fill cell = Some c ->
        (2 <= colorIndex cell)%Z
        /\ palette !! Z.to_nat (colorIndex cell) = Some c).
Proof. apply untouched_cell_cases. Qed.

Lemma untouched_cell_paint_witness :
  (0 <= colorIndex (renderCell ∅ 0 0 0) <= 10)%Z
  /\ fill (renderCell ∅ 0 0 0) = None.
Proof.
  destruct (untouched_cell_paint ∅ 0 0 0 (lookup_empty _)) as (Hi & Hf & _).
  split; [exact Hi|]. apply Hf. left.
  replace (IZR 0 + IZR (Zfloor (0 / 4))) with 0.
  - rewrite pseudoRandom_origin. lra.
  - replace (0 / 4) with (IZR 0) by (simpl; lra). rewrite ZfloorZ. simpl. lra.
Defined.

(** X7: while the scroll offset and the stored intensities are not
    negative, the index [render] computes for any cell, touched or not, is
    a valid palette index (0..10), so the colour painted is always
    [palette[colorIndex]] and the fallback [|| palette[2]] is never
    taken. *)
Theorem render_index_in_palette (touched : TouchedPixels) (currentScroll : R)
    (x y : Z) :
  0 <= currentScroll ->
  map_Forall (fun _ v => 0 <= v) touched ->
  let cell := renderCell touched currentScroll x y in
  (0 <= colorIndex cell <= 10)%Z
  /\ (forall c, fill cell = Some c ->
        palette !! Z.to_nat (colorIndex cell) = Some c).
Proof.
  intros Hs Hall cell.
  destruct (touched !! (x, y)) as [touchMod|] eqn:Hk.
  - pose proof (Hall _ _ Hk) as Ht. simpl in Ht.
    pose proof (renderCell_touched _ currentScroll _ _ _ Hk) as Hi.
    pose proof (renderCell_touched_fill _ _ _ _ _ Hk Ht Hs) as Hf.
    fold cell in Hi, Hf.
    set (n := pseudoRandom _ _) in Hi.
    destruct (pseudoRandom_range (IZR x) (IZR y + IZR (Zfloor (currentScroll / 4))))
      as [Hn0 _]. fold n in Hn0.
    destruct (touchedColorIndex_cases n touchMod currentScroll Hn0 Ht Hs)
      as [Hin Hout].
    assert (0 <= colorIndex cell <= 10)%Z as Hr.
    { rewrite Hi.
      destruct (Rlt_dec (n + touchMod + currentScroll * 0.001) 1) as [Hb|Hb].
      - specialize (Hin Hb). lia.
      - rewrite Hout by lra. lia. }
    split; [exact Hr|]. intros c Hc. rewrite Hf in Hc.
    unfold palette_at in Hc.
    destruct (Z.ltb_spec (colorIndex cell) 0); [lia | exact Hc].
  - destruct (untouched_cell_cases touched currentScroll x y Hk) as (Hr & _ & Hc).
    split; [exact Hr|]. intros c Hfc. apply (Hc c Hfc).
Qed.

Lemma render_index_in_palette_witness :
  (0 <= colorIndex
          (renderCell ({[ (3, 4) := 0.25%R ]} : TouchedPixels) 240%R 3 4) <= 10)%Z.
Proof.
  apply (render_index_in_palette {[ (3, 4)%Z := 0.25 ]} 240 3 4).
  - lra.
  - apply map_Forall_singleton. lra.
Defined.

(** The fallback is there for overscroll: with a negative scroll offset a
    touched cell can get a negative index, for which [palette[colorIndex]]
    is [undefined]; the cell is then painted in the third colour. *)
Example render_fallback_on_negative_scroll :
  let touched : TouchedPixels := {[ (0, 0)%Z := 0 ]} in
  (colorIndex (renderCell touched (-4000) 0 0) < 0)%Z
  /\ fill (renderCell touched (-4000) 0 0) = Some "#c7d2fe"%string.
Proof.
  intros touched.
  assert (touched !! (0, 0)%Z = Some 0) as Hk by apply lookup_singleton_eq.
  clearbody touched.
  pose proof (renderCell_touched _ (-4000) _ _ _ Hk) as Hi.
  set (n := pseudoRandom _ _) in Hi.
  destruct (pseudoRandom_range (IZR 0) (IZR 0 + IZR (Zfloor (-4000 / 4))))
    as [Hn0 Hn1]. fold n in Hn0, Hn1.
  destruct (touchedIndex_bounds n 0 (-4000)) as [Hlo Hhi]. cbv zeta in Hlo, Hhi.
  set (i := touchedIndex n 0 (-4000)) in *.
  assert (i < 0)%Z as Hneg.
  { assert (IZR i < IZR 0) as H by (simpl; lra). apply lt_IZR in H. exact H. }
  assert (colorIndex (renderCell touched (-4000) 0 0) = i) as Hci.
  { rewrite Hi. unfold touchedColorIndex, guardIndex. fold i.
    rewrite palette_length_11. destruct (Z.geb_spec i 11); [lia | reflexivity]. }
  split; [rewrite Hci; exact Hneg|].
  unfold renderCell in *. rewrite Hk in *. cbn [colorIndex fill] in *.
  rewrite bool_decide_eq_true_2 by eauto. rewrite orb_true_r.
  rewrite Hci. unfold palette_at.
  destruct (Z.ltb_spec i 0); [reflexivity | lia].
Qed.

End Brush.

(** ** The scene over time *)

Section SceneDynamics.
Import ParticleMorphScene.

(** [animate] moves the damped value toward the target and not past
    it. *)
Lemma damp_between (sp target : R) :
  Rmin sp target <= damp sp target <= Rmax sp target.
Proof. unfold damp. rcompare. Qed.

Lemma onScroll_target_range (container : option DOMRect) (vh : R) (s : Scene) :
  0 <= targetScrollProgress s <= 1 ->
  0 <= targetScrollProgress (onScroll container vh s).1 <= 1.
Proof.
  intros Hs. destruct container as [rect|]; [|exact Hs].
  destruct (Rlt_dec 0 (height rect - vh)) as [Hd|Hd].
  - rewrite onScroll_scrollable by exact Hd. apply clamp01_range.
  - rewrite onScroll_short by lra. exact Hs.
Qed.

Lemma onScroll_scrollProgress (container : option DOMRect) (vh : R) (s : Scene) :
  scrollProgress (onScroll container vh s).1 = scrollProgress s
  /\ particles (onScroll container vh s).1 = particles s
  /\ particleGroup (onScroll container vh s).1 = particleGroup s.
Proof.
  destruct container as [rect|]; [|repeat split].
  destruct (Rlt_dec 0 (height rect - vh)) as [Hd|Hd].
  - rewrite onScroll_scrollable by exact Hd. repeat split.
  - rewrite onScroll_short by lra. repeat split.
Qed.

Lemma sceneStep_unit (ev : SceneEvent) (s : Scene) :
  0 <= targetScrollProgress s <= 1 /\ 0 <= scrollProgress s <= 1 ->
  0 <= targetScrollProgress (sceneStep ev s) <= 1
  /\ 0 <= scrollProgress (sceneStep ev s) <= 1.
Proof.
  intros [Ht Hs]. destruct ev as [|container vh]; cbn [sceneStep].
  - split; [exact Ht|]. cbn [animate scrollProgress].
    pose proof (damp_between (scrollProgress s) (targetScrollProgress s)).
    rcompare.
  - split; [apply onScroll_target_range, Ht|].
    destruct (onScroll_scrollProgress container vh s) as (-> & _). exact Hs.
Qed.

Lemma sceneRun_unit (evs : list SceneEvent) (s : Scene) :
  0 <= targetScrollProgress s <= 1 /\ 0 <= scrollProgress s <= 1 ->
  0 <= targetScrollProgress (sceneRun evs s) <= 1
  /\ 0 <= scrollProgress (sceneRun evs s) <= 1.
Proof.
  revert s. induction evs as [|ev evs IH]; intros s Hs; [exact Hs|].
  simpl. apply IH, sceneStep_unit, Hs.
Qed.

(** X8: from the mounted scene on, through any sequence of animation
    frames and scroll events, the target progress and the damped progress
    both stay in [0, 1]. *)
Theorem scene_progress_in_unit_interval (rnd : nat -> R)
    (evs : list SceneEvent) :
  let s := sceneRun evs (init true rnd newScene) in
  0 <= targetScrollProgress s <= 1 /\ 0 <= scrollProgress s <= 1.
Proof.
  apply sceneRun_unit. cbn [init newScene animate targetScrollProgress scrollProgress].
  unfold damp. lra.
Qed.

Lemma iter_animate_target (n : nat) (s : Scene) :
  targetScrollProgress (Nat.iter n animate s) = targetScrollProgress s.
Proof. induction n as [|n IH]; [reflexivity|]. simpl. exact IH. Qed.

Lemma iter_animate_closed_form (n : nat) (s : Scene) :
  scrollProgress (Nat.iter n animate s)
  = targetScrollProgress s
    + (scrollProgress s - targetScrollProgress s) * 0.95 ^ n.
Proof.
  induction n as [|n IH]; [simpl; ring|].
  change (Nat.iter (S n) animate s) with (animate (Nat.iter n animate s)).
  unfold animate at 1. cbn [scrollProgress]. unfold damp.
  rewrite iter_animate_target, IH. simpl. lra.
Qed.

(** X9: with the target left alone, [n] frames shrink the gap between
    the damped progress and the target by the factor 0.95 to the [n]:
    the damped value is [target + (old - target) * 0.95 ^ n]. *)
Theorem damping_closed_form (n : nat) (s : Scene) :
  scrollProgress (Nat.iter n animate s)
  = targetScrollProgress s
    + (scrollProgress s - targetScrollProgress s) * 0.95 ^ n
  /\ targetScrollProgress (Nat.iter n animate s) = targetScrollProgress s.
Proof. split; [apply iter_animate_closed_form | apply iter_animate_target]. Qed.

Lemma pow_095_range (n : nat) : 0 <= 0.95 ^ n <= 1.
Proof.
  split; [apply pow_le; lra|].
  rewrite <- (pow1 n). apply pow_incr. lra.
Qed.

(** X10: the damping never overshoots: after any number of frames the
    damped value lies between the value it started from and the
    target. *)
Theorem damping_never_overshoots (n : nat) (s : Scene) :
  Rmin (scrollProgress s) (targetScrollProgress s)
  <= scrollProgress (Nat.iter n animate s)
  <= Rmax (scrollProgress s) (targetScrollProgress s).
Proof.
  rewrite iter_animate_closed_form.
  pose proof (pow_095_range n) as Hp.
  set (q := 0.95 ^ n) in *.
  unfold Rmin, Rmax. destruct (Rle_dec _ _); nra.
Qed.

(** *** The particles [init] builds *)

(** The lattice in closed form: point number [i] is
    [(i / 64, i / 8 mod 8, i mod 8)]. *)
Lemma lattice_by_index :
  lattice
  = map (fun i => (i / 64, (i / 8) mod 8, i mod 8)%Z) (seqZ 0 512).
Proof. vm_compute. reflexivity. Qed.

Lemma lattice_lookup (i : nat) (c : Z * Z * Z) :
  lattice !! i = Some c ->
  (0 <= c.1.1 < 8)%Z /\ (0 <= c.1.2 < 8)%Z /\ (0 <= c.2 < 8)%Z
  /\ Z.of_nat i = (64 * c.1.1 + 8 * c.1.2 + c.2)%Z.
Proof.
  rewrite lattice_by_index. intros Hi.
  apply list_lookup_fmap_Some in Hi as (j & Hc & Hj). subst c.
  apply lookup_seqZ in Hj as [-> Hlt]. cbn [fst snd].
  rewrite !Z.add_0_l.
  repeat split; try (apply Z.div_pos; lia); try (apply Z.mod_pos_bound; lia);
    try (apply Z.div_lt_upper_bound; lia).
  pose proof (Z.div_mod (Z.of_nat i) 8 ltac:(lia)).
  pose proof (Z.div_mod (Z.of_nat i / 8) 8 ltac:(lia)).
  assert (Z.of_nat i / 64 = Z.of_nat i / 8 / 8)%Z as ->
    by (rewrite Z.div_div by lia; reflexivity).
  lia.
Qed.

(** X11: [init] builds 512 particles, one for each point of the 8 x 8 x 8
    lattice, in the order of the loops: the particle at index
    [64 x + 8 y + z] of the array is the one built for the point
    [(x, y, z)]; it starts, and its mesh is placed, at
    [((x - 3.5) / 2, (y - 3.5) / 2, (z - 3.5) / 2)]. *)
Theorem init_builds_lattice (rnd : nat -> R) :
  length (initParticles rnd) = 512%nat
  /\ (forall i p, initParticles rnd !! i = Some p ->
       exists x y z,
         (0 <= x < 8)%Z /\ (0 <= y < 8)%Z /\ (0 <= z < 8)%Z
         /\ Z.of_nat i = (64 * x + 8 * y + z)%Z
         /\ startPos p
            = {| vx := (IZR x - 3.5) / 2;
                 vy := (IZR y - 3.5) / 2;
                 vz := (IZR z - 3.5) / 2 |}
         /\ position (mesh p) = startPos p
         /\ exists draws, p = initParticle x y z draws)
  /\ (forall x y z,
        (0 <= x < 8)%Z -> (0 <= y < 8)%Z -> (0 <= z < 8)%Z ->
        exists draws,
          initParticles rnd !! Z.to_nat (64 * x + 8 * y + z)
          = Some (initParticle x y z draws)).
Proof.
  assert (length (initParticles rnd) = 512%nat) as Hlen.
  { unfold initParticles.
    rewrite length_imap, lattice_by_index, length_map, length_seqZ. reflexivity. }
  assert (forall i p, initParticles rnd !! i = Some p ->
            exists x y z,
              (0 <= x < 8)%Z /\ (0 <= y < 8)%Z /\ (0 <= z < 8)%Z
              /\ Z.of_nat i = (64 * x + 8 * y + z)%Z
              /\ exists draws, p = initParticle x y z draws) as Hfwd.
  { unfold initParticles. intros i p Hi. rewrite list_lookup_imap in Hi.
    destruct (lattice !! i) as [[[x y] z]|] eqn:Hl; [|discriminate].
    injection Hi as <-. exists x, y, z.
    destruct (lattice_lookup i _ Hl) as (Hx & Hy & Hz & Hidx).
    cbn [fst snd] in *.
    split; [lia|]. split; [lia|]. split; [lia|]. split; [exact Hidx|].
    eexists. reflexivity. }
  split; [exact Hlen|]. split.
  - intros i p Hi.
    destruct (Hfwd i p Hi) as (x & y & z & Hx & Hy & Hz & Hidx & draws & ->).
    exists x, y, z. repeat (split; [assumption|]).
    split; [|split; [reflexivity | eexists; reflexivity]].
    unfold initParticle, cubeSize, spreadCube. cbn [startPos].
    apply Vector3_eq; cbn [vx vy vz]; lra.
  - intros x y z Hx Hy Hz.
    destruct (lookup_lt_is_Some_2 (initParticles rnd)
                (Z.to_nat (64 * x + 8 * y + z))) as [p Hp]; [rewrite Hlen; lia|].
    destruct (Hfwd _ p Hp)
      as (x' & y' & z' & Hx' & Hy' & Hz' & Hidx & draws & ->).
    assert (x' = x /\ y' = y /\ z' = z) as (-> & -> & ->) by lia.
    exists draws. exact Hp.
Qed.

Lemma v_length_multiplyScalar (c : R) (v : Vector3) :
  0 <= c -> v_length (multiplyScalar c v) = c * v_length v.
Proof.
  intros Hc. unfold v_length, multiplyScalar. cbn [vx vy vz].
  replace (vx v * c * (vx v * c) + vy v * c * (vy v * c) + vz v * c * (vz v * c))
    with (c * c * (vx v * vx v + vy v * vy v + vz v * vz v)) by ring.
  rewrite sqrt_mult by nra. rewrite sqrt_square by exact Hc. reflexivity.
Qed.

Lemma v_length_normalize (v : Vector3) :
  v_length v <> 0 -> v_length (normalize v) = 1.
Proof.
  intros Hl. unfold normalize.
  destruct (Req_dec_T (v_length v) 0) as [H0|_]; [contradiction|].
  unfold divideScalar. pose proof (sqrt_pos (vx v * vx v + vy v * vy v + vz v * vz v)) as Hp.
  fold (v_length v) in Hp.
  rewrite v_length_multiplyScalar.
  - field. exact Hl.
  - apply Rlt_le, Rdiv_lt_0_compat; lra.
Qed.

(** A lattice coordinate is never 0: it is at least a quarter away. *)
Lemma lattice_coordinate (x : Z) :
  (0 <= x < 8)%Z ->
  let c := (IZR x - (IZR cubeSize - 1) / 2) * (spreadCube / IZR cubeSize) in
  -1.75 <= c <= 1.75 /\ 0.0625 <= c * c.
Proof.
  intros Hx c. unfold c, cubeSize, spreadCube.
  assert (IZR 0 <= IZR x <= IZR 7) as Hr by (split; apply IZR_le; lia).
  simpl in Hr.
  destruct (Z_le_gt_dec x 3) as [H3|H3].
  - assert (IZR x <= IZR 3) as H by (apply IZR_le; lia). simpl in H.
    split; [lra | nra].
  - assert (IZR 4 <= IZR x) as H by (apply IZR_le; lia). simpl in H.
    split; [lra | nra].
Qed.

Lemma initParticle_shape (x y z : Z) (draws : nat -> R) :
  (0 <= x < 8)%Z -> (0 <= y < 8)%Z -> (0 <= z < 8)%Z ->
  0 <= draws 0%nat < 1 ->
  let p := initParticle x y z draws in
  let radiusVariation := 1 + (draws 0%nat * 0.2 - 0.1) in
  0.25 <= v_length (startPos p)
  /\ v_length (endPos p) = spreadSphere * radiusVariation
  /\ endPos p
     = multiplyScalar (spreadSphere * radiusVariation / v_length (startPos p))
         (startPos p).
Proof.
  intros Hx Hy Hz Hd p rv.
  destruct (lattice_coordinate x Hx) as [_ Hsx].
  destruct (lattice_coordinate y Hy) as [_ Hsy].
  destruct (lattice_coordinate z Hz) as [_ Hsz].
  cbv zeta in Hsx, Hsy, Hsz.
  unfold p, initParticle. cbn [startPos endPos].
  set (s := {| vx := _; vy := _; vz := _ |}).
  assert (0.25 <= v_length s) as Hl.
  { unfold v_length, s. cbn [vx vy vz].
    rewrite <- (sqrt_square 0.25) by lra.
    apply sqrt_le_1_alt. lra. }
  split; [exact Hl|]. fold rv. split.
  - rewrite !v_length_multiplyScalar by (unfold rv, spreadSphere; lra).
    rewrite v_length_normalize by lra. ring.
  - unfold normalize, divideScalar.
    destruct (Req_dec_T (v_length s) 0) as [H0|_]; [lra|].
    unfold multiplyScalar. cbn [vx vy vz].
    apply Vector3_eq; cbn [vx vy vz]; field; lra.
Qed.

(** X12: a particle built by [init] for a lattice point, with results of
    [Math.random()] in [0, 1): its start position is at least 0.25 from
    the centre (so [normalize] divides by its true length); its end
    position points the same way at distance 3.5 times the radius
    variation, between 3.15 and 3.85; its delay is in [0, 0.5), its two
    rotation speeds in [-0.01, 0.01), and its colour is one of the six;
    its mesh starts at the start position. *)
Theorem init_particle_ranges (x y z : Z) (draws : nat -> R) :
  (0 <= x < 8)%Z -> (0 <= y < 8)%Z -> (0 <= z < 8)%Z ->
  (forall k, 0 <= draws k < 1) ->
  let p := initParticle x y z draws in
  0.25 <= v_length (startPos p)
  /\ (exists k, 0 < k /\ endPos p = multiplyScalar k (startPos p))
  /\ 3.15 <= v_length (endPos p) < 3.85
  /\ 0 <= delay p < 0.5
  /\ -0.01 <= rotSpeed_x p < 0.01
  /\ -0.01 <= rotSpeed_y p < 0.01
  /\ (exists c, particleColor draws = Some c /\ In c colors)
  /\ position (mesh p) = startPos p.
Proof.
  intros Hx Hy Hz Hd p.
  destruct (initParticle_shape x y z draws Hx Hy Hz (Hd 0%nat)) as (Hl & Hlen & Hdir).
  cbv zeta in Hl, Hlen, Hdir. fold p in Hl, Hlen, Hdir.
  pose proof (Hd 0%nat) as H0. pose proof (Hd 1%nat) as H1.
  pose proof (Hd 5%nat) as H5. pose proof (Hd 6%nat) as H6.
  pose proof (Hd 7%nat) as H7.
  split; [exact Hl|]. split.
  { eexists. split; [|exact Hdir].
    apply Rdiv_lt_0_compat; [unfold spreadSphere; lra | lra]. }
  split; [rewrite Hlen; unfold spreadSphere; lra|].
  unfold p, initParticle. cbn [delay rotSpeed_x rotSpeed_y mesh position startPos].
  split; [lra|]. split; [lra|]. split; [lra|]. split; [|reflexivity].
  unfold particleColor. change (IZR (Z.of_nat (length colors))) with 6.
  pose proof (Zfloor_bound (draws 1%nat * 6)) as Hb.
  set (i := Zfloor (draws 1%nat * 6)) in *.
  assert (0 <= i < 6)%Z as Hi.
  { split.
    - assert (IZR (-1) < IZR i) as H by (simpl; lra). apply lt_IZR in H. lia.
    - assert (IZR i < IZR 6) as H by (simpl; lra). apply lt_IZR in H. lia. }
  destruct (Z.ltb_spec i 0); [lia|].
  assert (exists k, (k < 6)%nat /\ Z.to_nat i = k) as (k & Hk & ->)
    by (exists (Z.to_nat i); lia).
  do 6 (destruct k as [|k];
        [eexists; split; [reflexivity | simpl; tauto]|]).
  lia.
Qed.

Lemma init_particle_ranges_witness :
  let p := initParticle 0 3 7 (fun _ => 0.5) in
  3.15 <= v_length (endPos p) < 3.85 /\ 0 <= delay p < 0.5.
Proof.
  intros p.
  destruct (init_particle_ranges 0 3 7 (fun _ => 0.5)) as (_ & _ & H1 & H2 & _);
    try lia.
  - intros _. lra.
  - split; [exact H1 | exact H2].
Defined.

Lemma updateParticle_at_end (sp : R) (p : Particle) :
  1 <= sp * 1.5 - delay p * 0.5 ->
  position (mesh (updateParticle sp p)) = endPos p
  /\ scale (mesh (updateParticle sp p)) = setScalar 1.
Proof.
  intros H. unfold updateParticle, localProgress.
  rewrite clamp01_above by exact H.
  unfold moveParticle. cbn [mesh position scale].
  rewrite ease_1, scaleFactor_1, lerpVectors_1. split; reflexivity.
Qed.

Lemma updateParticle_at_start (sp : R) (p : Particle) :
  sp * 1.5 - delay p * 0.5 <= 0 ->
  position (mesh (updateParticle sp p)) = startPos p
  /\ scale (mesh (updateParticle sp p)) = setScalar 1.
Proof.
  intros H. unfold updateParticle, localProgress.
  rewrite clamp01_below by exact H.
  unfold moveParticle. cbn [mesh position scale].
  rewrite ease_0, scaleFactor_0, lerpVectors_0. split; reflexivity.
Qed.

(** X13: for a particle with a delay in [0, 0.5], as [init] makes them:
    once the damped progress is 5/6 or more the particle sits exactly at
    its end position, and while the damped progress is 0 or less it sits
    exactly at its start position; its scale is 1 in both cases. *)
Theorem morph_completes (sp : R) (p : Particle) :
  0 <= delay p <= 0.5 ->
  (5 / 6 <= sp ->
     position (mesh (updateParticle sp p)) = endPos p
     /\ scale (mesh (updateParticle sp p)) = setScalar 1)
  /\ (sp <= 0 ->
        position (mesh (updateParticle sp p)) = startPos p
        /\ scale (mesh (updateParticle sp p)) = setScalar 1).
Proof.
  intros Hd. split; intros Hs.
  - apply updateParticle_at_end. lra.
  - apply updateParticle_at_start. lra.
Qed.

Lemma morph_completes_witness :
  let p := initParticle 0 3 7 (fun _ => 0.5) in
  position (mesh (updateParticle 0.9 p)) = endPos p
  /\ position (mesh (updateParticle 0 p)) = startPos p.
Proof.
  intros p.
  assert (0 <= delay p <= 0.5) as Hd by (unfold p, initParticle; cbn [delay]; lra).
  split.
  - apply (morph_completes 0.9 p Hd). lra.
  - apply (morph_completes 0 p Hd). lra.
Defined.

Lemma sceneStep_blueprint (ev : SceneEvent) (s : Scene) :
  map blueprint (particles (sceneStep ev s)) = map blueprint (particles s).
Proof.
  destruct ev as [|container vh]; cbn [sceneStep].
  - cbn [animate particles]. rewrite map_map. apply map_ext. reflexivity.
  - destruct (onScroll_scrollProgress container vh s) as (_ & -> & _). reflexivity.
Qed.

(** X14: no frame and no scroll event adds, removes or reorders
    particles, or changes the start position, end position, rotation
    speeds or delay of one. *)
Theorem events_keep_blueprints (evs : list SceneEvent) (s : Scene) :
  map blueprint (particles (sceneRun evs s)) = map blueprint (particles s).
Proof.
  revert s. induction evs as [|ev evs IH]; intros s; [reflexivity|].
  simpl. rewrite IH. apply sceneStep_blueprint.
Qed.

Lemma iter_animate_delays (n : nat) (s : Scene) :
  Forall (fun p => 0 <= delay p <= 0.5) (particles s) ->
  Forall (fun p => 0 <= delay p <= 0.5) (particles (Nat.iter n animate s)).
Proof.
  intros Hs. induction n as [|n IH]; [exact Hs|].
  change (Nat.iter (S n) animate s) with (animate (Nat.iter n animate s)).
  cbn [animate particles]. apply List.Forall_map.
  eapply Forall_impl; [exact IH|]. intros p Hp. exact Hp.
Qed.

Lemma pow_095_35 (n : nat) : (35 <= n)%nat -> 0.95 ^ n <= 1 / 6.
Proof.
  intros Hn. replace n with (35 + (n - 35))%nat by lia. rewrite pow_add.
  pose proof (pow_095_range (n - 35)) as Hr.
  assert (0 < 0.95 ^ 35 <= 1 / 6) as H35 by (simpl; lra).
  nra.
Qed.

(** X15: with the page scrolled to the end of the section (target 1)
    and a damped progress that is not negative, 35 animation frames or
    more leave every particle with a delay in [0, 0.5] exactly at its end
    position, with scale 1: the sphere is complete. *)
Theorem sphere_after_35_frames (n : nat) (s : Scene) :
  targetScrollProgress s = 1 ->
  0 <= scrollProgress s ->
  Forall (fun p => 0 <= delay p <= 0.5) (particles s) ->
  (35 <= n)%nat ->
  Forall (fun p => position (mesh p) = endPos p
                   /\ scale (mesh p) = setScalar 1)
    (particles (Nat.iter n animate s)).
Proof.
  intros Ht Hs Hd Hn. destruct n as [|n]; [lia|].
  pose proof (iter_animate_closed_form (S n) s) as Hsp.
  pose proof (pow_095_35 (S n) Hn) as Hp.
  pose proof (pow_095_range (S n)) as Hr.
  pose proof (iter_animate_delays n s Hd) as Hdn.
  change (Nat.iter (S n) animate s) with (animate (Nat.iter n animate s)) in *.
  set (s' := Nat.iter n animate s) in *.
  assert (5 / 6 <= scrollProgress (animate s')) as H56.
  { rewrite Hsp, Ht. set (q := 0.95 ^ S n) in *. nra. }
  unfold animate at 1. cbn [particles]. apply List.Forall_map.
  eapply Forall_impl; [exact Hdn|]. simpl. intros p Hdp.
  apply updateParticle_at_end.
  change (damp (scrollProgress s') (targetScrollProgress s'))
    with (scrollProgress (animate s')). lra.
Qed.

Lemma sphere_after_35_frames_witness :
  Forall (fun p => position (mesh p) = endPos p
                   /\ scale (mesh p) = setScalar 1)
    (particles
       (Nat.iter 35 animate
          (mkScene 1 0 None [initParticle 0 3 7 (fun _ => 0.5)]))).
Proof.
  apply sphere_after_35_frames.
  - reflexivity.
  - simpl. lra.
  - constructor; [|constructor]. unfold initParticle. cbn [delay]. lra.
  - lia.
Defined.

End SceneDynamics.

(** ** The running page *)

Section HeroInvariants.
Import App.

Lemma scrollJackEffect_consistent (p : Page) :
  (overflow p = overflow_hidden -> is_Some (inputListener p)) ->
  consistent (scrollJackEffect p).
Proof.
  intros Hk. unfold consistent, listener_fresh, lock_armed.
  rewrite scrollJackEffect_heroState, scrollJackEffect_showModal.
  destruct (Rle_dec (scrollY p) 50) as [Hy|Hy].
  - destruct (scrollJackEffect_top p Hy) as [-> ->]. split.
    + intros m h [= <- <-]. split; reflexivity.
    + destruct (heroState p); [intros _; split; reflexivity| |];
        (destruct (inputListener p); [discriminate|];
         intros Ho; destruct (Hk Ho) as [? [=]]).
  - destruct (scrollJackEffect_scrolled p) as [-> ->]; [lra|].
    split; [intros m h [=] | discriminate].
Qed.

(** A handler that leaves the listener alone and the lock as it is, or
    open, keeps the page consistent through the commit. *)
Lemma rerender_consistent (before after : Page) :
  consistent before ->
  inputListener after = inputListener before ->
  overflow after = overflow before \/ overflow after = overflow_auto ->
  consistent (rerender before after).
Proof.
  intros [Hf Hl] Hlis Hov. unfold rerender.
  destruct (bool_decide (heroState before = heroState after)) eqn:Hh;
    [destruct (Bool.eqb (showModal before) (showModal after)) eqn:Hm|]; cbn [andb].
  - apply bool_decide_eq_true_1 in Hh. apply Bool.eqb_prop in Hm. split.
    + intros m h Ha. rewrite Hlis in Ha. rewrite <- Hh, <- Hm. apply Hf, Ha.
    + intros Ho. destruct Hov as [Hov|Hov]; [|congruence].
      rewrite Hov in Ho. destruct (Hl Ho) as [H1 H2].
      rewrite <- Hh, <- Hm, Hlis. split; assumption.
  - apply scrollJackEffect_consistent. intros Ho.
    destruct Hov as [Hov|Hov]; [|congruence].
    rewrite Hov in Ho. rewrite Hlis. destruct (Hl Ho) as [_ ->]. eauto.
  - apply scrollJackEffect_consistent. intros Ho.
    destruct Hov as [Hov|Hov]; [|congruence].
    rewrite Hov in Ho. rewrite Hlis. destruct (Hl Ho) as [_ ->]. eauto.
Qed.

Lemma fire_consistent (p : Page) (t : Timer) :
  consistent p -> consistent (fire p t).
Proof.
  intros Hp. unfold fire. apply rerender_consistent; [exact Hp| |].
  - destruct (task t); reflexivity.
  - destruct (task t); [left | right]; reflexivity.
Qed.

Lemma fold_fire_consistent (due : list Timer) (p : Page) :
  consistent p -> consistent (fold_left fire due p).
Proof.
  revert p. induction due as [|t due IH]; intros p Hp; [exact Hp|].
  simpl. apply IH, fire_consistent, Hp.
Qed.

Lemma elapse_consistent (ms : nat) (p : Page) :
  consistent p -> consistent (elapse ms p).
Proof.
  revert p. induction ms as [|ms IH]; intros p Hp; [exact Hp|].
  simpl. apply IH. unfold tick. apply fold_fire_consistent.
  destruct Hp as [Hf Hl]. split; [exact Hf | exact Hl].
Qed.

Lemma handleInput_cases (m : bool) (h : HeroState) (e : InputEvent) (p : Page) :
  handleInput m h e p = p
  \/ (m = false /\ h = initial
      /\ handleInput m h e p
         = setTimeout finish_swap 1500 (set_heroState transitioning p)).
Proof.
  unfold handleInput. destruct m; [left; reflexivity|].
  destruct h; cbn; try (left; reflexivity).
  destruct e as [d|]; cbn; [destruct (Rleb d 0)|]; auto.
Qed.

Lemma step_consistent (ev : Event) (p : Page) :
  consistent p -> consistent (step ev p).
Proof.
  intros Hp. destruct ev as [e | y | ms |]; cbn [step].
  - destruct (inputListener p) as [[m h]|] eqn:Hl; [|exact Hp].
    apply rerender_consistent; [exact Hp| |];
      destruct (handleInput_cases m h e p) as [-> | (_ & _ & ->)];
      try reflexivity; left; reflexivity.
  - assert (consistent (set_scrollY y p)) as Hp1
      by (destruct Hp as [Hf Hl]; split; [exact Hf | exact Hl]).
    apply rerender_consistent; [exact Hp1| |];
      unfold handleScrollReset; destruct (_ && _); try reflexivity;
      left; reflexivity.
  - apply elapse_consistent, Hp.
  - apply rerender_consistent; [exact Hp | reflexivity | left; reflexivity].
Qed.

Lemma run_consistent (evs : list Event) (p : Page) :
  consistent p -> consistent (run evs p).
Proof.
  revert p. induction evs as [|ev evs IH]; intros p Hp; [exact Hp|].
  simpl. apply IH, step_consistent, Hp.
Qed.

Lemma mount_consistent (y : R) : consistent (mount y).
Proof. unfold mount. apply scrollJackEffect_consistent. cbn. discriminate. Qed.

(** X16: when every event is handled to completion, React's commit and
    the effect included, before the next one arrives: on every page
    reached from the first render by wheel, touch, scroll and timer
    events and closing the modal, the registered [handleInput] holds the
    current [showModal] and [heroState] (the dependencies of the effect
    cover what the closure captures), and the page is scroll-locked
    ([overflow: hidden]) only while the hero is [initial] and
    [handleInput] is registered. *)
Theorem reachable_pages_consistent (y : R) (evs : list Event) :
  let p := run evs (mount y) in
  (forall m h, inputListener p = Some (m, h) ->
     m = showModal p /\ h = heroState p)
  /\ (overflow p = overflow_hidden ->
      heroState p = initial /\ inputListener p = Some (showModal p, initial)).
Proof. apply (run_consistent evs (mount y)), mount_consistent. Qed.

Lemma scrollJackEffect_scrollY (p : Page) :
  scrollY (scrollJackEffect p) = scrollY p.
Proof.
  unfold scrollJackEffect, setup, cleanup.
  destruct (inputListener p); simpl;
    destruct (Rltb 50 (scrollY p)); simpl; try reflexivity;
    destruct (bool_decide (heroState p = initial)); reflexivity.
Qed.

Lemma step_input_ignored (p : Page) (e : InputEvent) :
  listener_fresh p ->
  showModal p = true \/ heroState p <> initial ->
  step (Input e) p = p.
Proof.
  intros Hf Hc. cbn [step].
  destruct (inputListener p) as [[m h]|] eqn:Hl; [|reflexivity].
  destruct (Hf m h Hl) as [-> ->]. unfold handleInput.
  destruct Hc as [-> | Hh]; [apply rerender_same|].
  destruct (showModal p); [apply rerender_same|].
  rewrite (bool_decide_eq_false_2 _ Hh). apply rerender_same.
Qed.

(** X17: when every event is handled to completion, React's commit and
    the effect included, before the next one arrives: on every page so
    reached, a wheel or touch event is ignored altogether (no state
    change, no timer set) while the modal is shown or the hero is not
    [initial]; so once a started transition has been committed, further
    gestures do not start it again. *)
Theorem input_ignored_outside_initial (y : R) (evs : list Event)
    (e : InputEvent) :
  let p := run evs (mount y) in
  showModal p = true \/ heroState p <> initial ->
  step (Input e) p = p.
Proof.
  intros p Hc. apply step_input_ignored; [|exact Hc].
  apply (run_consistent evs (mount y)), mount_consistent.
Qed.

Lemma input_ignored_outside_initial_witness :
  inputListener (run [Input touchmove] (mount 0)) = Some (false, transitioning)
  /\ step (Input (wheel 40)) (run [Input touchmove] (mount 0))
     = run [Input touchmove] (mount 0).
Proof.
  destruct (mount_top 0) as (H0 & _ & Hl & _); [lra|].
  destruct (step_input_starts (mount 0) touchmove Hl I) as [Hh _].
  split.
  - assert (showModal (mount 0) = false) as Hm
      by (unfold mount; rewrite scrollJackEffect_showModal; reflexivity).
    assert (scrollY (mount 0) = 0) as Hy
      by (unfold mount; rewrite scrollJackEffect_scrollY; reflexivity).
    cbn [run fold_left step]. rewrite Hl.
    change (handleInput false initial touchmove (mount 0))
      with (setTimeout finish_swap 1500 (set_heroState transitioning (mount 0))).
    unfold rerender. cbn [heroState setTimeout set_timers set_heroState].
    rewrite H0, bool_decide_eq_false_2 by discriminate. cbn [andb].
    destruct (scrollJackEffect_top
                (setTimeout finish_swap 1500
                   (set_heroState transitioning (mount 0)))) as [-> _].
    + cbn [scrollY setTimeout set_timers set_heroState]. rewrite Hy. lra.
    + cbn [showModal heroState setTimeout set_timers set_heroState].
      rewrite Hm. reflexivity.
  - apply (input_ignored_outside_initial 0 [Input touchmove] (wheel 40)).
    right. cbn [run fold_left]. rewrite Hh. discriminate.
Defined.

(** *** The lock is always released *)

Lemma fire_scrolled_auto (p : Page) (t : Timer) :
  50 < scrollY p -> overflow p = overflow_auto ->
  overflow (fire p t) = overflow_auto.
Proof.
  intros Hy Ho. unfold fire, rerender.
  destruct (_ && _).
  - destruct (task t); [exact Ho | reflexivity].
  - apply scrollJackEffect_scrolled. destruct (task t); exact Hy.
Qed.

Lemma elapse_scrolled_auto (ms : nat) :
  forall p, 50 < scrollY p -> overflow p = overflow_auto ->
            overflow (elapse ms p) = overflow_auto.
Proof.
  induction ms as [|ms IH]; intros p Hy Ho; [exact Ho|].
  simpl. apply IH.
  - unfold tick. rewrite fold_fire_scrollY. exact Hy.
  - unfold tick.
    generalize (List.filter is_due (map age (timers p))). intros due.
    assert (forall q, 50 < scrollY q -> overflow q = overflow_auto ->
                      overflow (fold_left fire due q) = overflow_auto) as Hfold.
    { induction due as [|t due IHd]; intros q Hq Hoq; [exact Hoq|].
      simpl. apply IHd; [rewrite fire_scrollY; exact Hq|].
      apply fire_scrolled_auto; assumption. }
    apply Hfold; [exact Hy | exact Ho].
Qed.

(** From a page on which [handleInput] is registered for [initial]
    without the modal, a touch move and 1500 ms end [swapped] and
    unlocked. *)
Lemma touch_unlocks (p : Page) :
  inputListener p = Some (false, initial) ->
  heroState (elapse 1500 (step (Input touchmove) p)) = swapped
  /\ overflow (elapse 1500 (step (Input touchmove) p)) = overflow_auto.
Proof.
  intros Hl. destruct (step_input_starts p touchmove Hl I) as [_ Hts].
  destruct (elapse_last_timer 1499 _ _ _ Hts) as [p0 ->].
  apply fire_finish_swap.
Qed.

Lemma lock_released (p : Page) :
  consistent p -> overflow p = overflow_hidden ->
  overflow (run [CloseModal; Input touchmove; Elapse 1500] p) = overflow_auto.
Proof.
  intros [Hf Hl] Ho. destruct (Hl Ho) as [Hh Hlis].
  unfold run. cbn [fold_left].
  change (step (Elapse 1500) ?q) with (elapse 1500 q).
  destruct (showModal p) eqn:Hm.
  - assert (step CloseModal p = scrollJackEffect (set_showModal false p)) as ->.
    { cbn [step]. unfold rerender. cbn [showModal set_showModal heroState].
      rewrite Hm, andb_false_r. reflexivity. }
    destruct (Rle_dec (scrollY p) 50) as [Hy|Hy].
    + apply touch_unlocks.
      destruct (scrollJackEffect_top (set_showModal false p) Hy) as [-> _].
      cbn [showModal heroState set_showModal]. rewrite Hh. reflexivity.
    + destruct (scrollJackEffect_scrolled (set_showModal false p))
        as [Hnone Hauto]; [cbn; lra|].
      rewrite step_input_unregistered by exact Hnone.
      apply elapse_scrolled_auto; [|exact Hauto].
      unfold scrollJackEffect, setup, cleanup. cbn.
      destruct (inputListener p); cbn; rewrite Rltb_true by lra; cbn; lra.
  - assert (step CloseModal p = set_showModal false p) as ->.
    { cbn [step]. unfold rerender. cbn [showModal set_showModal heroState].
      rewrite Hm, bool_decide_eq_true_2 by reflexivity. reflexivity. }
    apply touch_unlocks. exact Hlis.
Qed.

(** X18: the page cannot stay scroll-locked: from every reachable page
    that is locked ([overflow: hidden]), closing the modal, one touch
    move and 1500 ms lead to an unlocked page ([overflow: auto]). *)
Theorem lock_can_be_released (y : R) (evs : list Event) :
  let p := run evs (mount y) in
  overflow p = overflow_hidden ->
  overflow (run [CloseModal; Input touchmove; Elapse 1500] p) = overflow_auto.
Proof.
  intros p Ho. apply lock_released; [|exact Ho].
  apply (run_consistent evs (mount y)), mount_consistent.
Qed.

Lemma lock_can_be_released_witness :
  overflow (run [CloseModal; Input touchmove; Elapse 1500] (run [] (mount 0)))
  = overflow_auto.
Proof.
  apply (lock_can_be_released 0 []).
  cbn [run fold_left]. apply mount_top. lra.
Defined.

(** *** A transition always completes *)

Lemma fold_fire_keeps_swapped (due : list Timer) (p : Page) :
  heroState p = swapped -> heroState (fold_left fire due p) = swapped.
Proof.
  revert p. induction due as [|t due IH]; intros p Hp; [exact Hp|].
  simpl. apply IH. rewrite fire_heroState. destruct (task t); [exact Hp | reflexivity].
Qed.

Lemma fold_fire_swaps (due : list Timer) (p : Page) :
  Exists (fun t => task t = finish_swap) due ->
  heroState (fold_left fire due p) = swapped.
Proof.
  revert p. induction due as [|t due IH]; intros p Hex.
  - inversion Hex.
  - simpl. apply Exists_cons in Hex as [Ht | Hex]; [|apply IH, Hex].
    apply fold_fire_keeps_swapped. rewrite fire_heroState, Ht. reflexivity.
Qed.

Lemma tick_heroState_cases (p : Page) :
  let due := List.filter is_due (map age (timers p)) in
  (Exists (fun t => task t = finish_swap) due /\ heroState (tick p) = swapped)
  \/ (Forall (fun t => task t = show_modal) due
      /\ heroState (tick p) = heroState p).
Proof.
  intros due. unfold tick. fold due.
  assert (Exists (fun t => task t = finish_swap) due
          \/ Forall (fun t => task t = show_modal) due) as [Hex | Hall].
  { clear. induction due as [|t due [IH|IH]].
    - right. constructor.
    - left. apply Exists_cons. right. exact IH.
    - destruct (task t) eqn:Ht.
      + right. constructor; assumption.
      + left. apply Exists_cons. left. exact Ht. }
  - left. split; [exact Hex | apply fold_fire_swaps, Hex].
  - right. split; [exact Hall|]. rewrite fold_fire_modal_only by exact Hall.
    reflexivity.
Qed.

Lemma tick_swap_scheduled (p : Page) : swap_scheduled p -> swap_scheduled (tick p).
Proof.
  intros [Hb Hex]. split.
  - rewrite tick_timers. rewrite List.Forall_forall in *. intros t Ht.
    apply List.filter_In in Ht as [Hin Hnd].
    apply List.in_map_iff in Hin as (t0 & <- & Hin0).
    specialize (Hb t0 Hin0). unfold is_due, age in *. cbn [remaining] in *.
    destruct (Nat.eqb_spec (pred (remaining t0)) 0); [discriminate | lia].
  - intros Htr. destruct (tick_heroState_cases p) as [[_ Hs] | [Hall Hh]];
      [congruence|].
    rewrite Hh in Htr. specialize (Hex Htr).
    rewrite tick_timers. apply List.Exists_exists in Hex as (t & Hin & Ht).
    apply List.Exists_exists. exists (age t). split; [|exact Ht].
    apply List.filter_In. split; [apply List.in_map, Hin|].
    destruct (is_due (age t)) eqn:Hd; [|reflexivity].
    rewrite List.Forall_forall in Hall.
    assert (task (age t) = show_modal) as Hc.
    { apply Hall, List.filter_In. split; [apply List.in_map, Hin | exact Hd]. }
    cbn in Hc. congruence.
Qed.

Lemma elapse_swap_scheduled (ms : nat) (p : Page) :
  swap_scheduled p -> swap_scheduled (elapse ms p).
Proof.
  revert p. induction ms as [|ms IH]; intros p Hp; [exact Hp|].
  simpl. apply IH, tick_swap_scheduled, Hp.
Qed.

Lemma rerender_swap_scheduled (before after : Page) :
  swap_scheduled after -> swap_scheduled (rerender before after).
Proof.
  intros [Hb Hex]. split.
  - rewrite rerender_timers. exact Hb.
  - rewrite rerender_heroState, rerender_timers. exact Hex.
Qed.

Lemma step_swap_scheduled (ev : Event) (p : Page) :
  swap_scheduled p -> swap_scheduled (step ev p).
Proof.
  intros Hp. destruct ev as [e | y | ms |]; cbn [step].
  - destruct (inputListener p) as [[m h]|]; [|exact Hp].
    apply rerender_swap_scheduled.
    destruct (handleInput_cases m h e p) as [-> | (_ & _ & ->)]; [exact Hp|].
    destruct Hp as [Hb _]. split.
    + cbn. apply Forall_app. split; [exact Hb|].
      constructor; [cbn; lia | constructor].
    + intros _. cbn. apply Exists_app. right. constructor. reflexivity.
  - apply rerender_swap_scheduled. unfold handleScrollReset.
    destruct (_ && _); [|exact Hp].
    destruct Hp as [Hb _]. split; [exact Hb | discriminate].
  - apply elapse_swap_scheduled, Hp.
  - apply rerender_swap_scheduled. exact Hp.
Qed.

Lemma run_swap_scheduled (evs : list Event) (p : Page) :
  swap_scheduled p -> swap_scheduled (run evs p).
Proof.
  revert p. induction evs as [|ev evs IH]; intros p Hp; [exact Hp|].
  simpl. apply IH, step_swap_scheduled, Hp.
Qed.

Lemma mount_swap_scheduled (y : R) : swap_scheduled (mount y).
Proof.
  unfold mount. split.
  - rewrite scrollJackEffect_timers. cbn.
    constructor; [cbn; lia | constructor].
  - rewrite scrollJackEffect_heroState. cbn.
    destruct (Rltb 50 y); discriminate.
Qed.

(** A pending [finish_swap] timer with [r] milliseconds left: [r]
    milliseconds later the hero is [swapped]. *)
Lemma elapse_pending_swap (r : nat) :
  forall p : Page,
    Exists (fun t => task t = finish_swap /\ remaining t = S r) (timers p) ->
    heroState (elapse (S r) p) = swapped.
Proof.
  induction r as [|r IH]; intros p Hex;
    apply List.Exists_exists in Hex as (t & Hin & Ht & Hr).
  - simpl. unfold tick. apply fold_fire_swaps.
    apply List.Exists_exists. exists (age t). split; [|exact Ht].
    apply List.filter_In. split; [apply List.in_map, Hin|].
    unfold is_due, age. cbn. rewrite Hr. reflexivity.
  - change (elapse (S (S r)) p) with (elapse (S r) (tick p)).
    apply IH. rewrite tick_timers.
    apply List.Exists_exists. exists (age t). split.
    + apply List.filter_In. split; [apply List.in_map, Hin|].
      unfold is_due, age. cbn. rewrite Hr. reflexivity.
    + split; [exact Ht|]. cbn. rewrite Hr. reflexivity.
Qed.

(** X19: a transition always completes: on every reachable page whose
    hero is [transitioning], the hero is [swapped] after some delay of at
    most 1500 ms, whatever else is pending. *)
Theorem transition_completes (y : R) (evs : list Event) :
  let p := run evs (mount y) in
  heroState p = transitioning ->
  exists ms, (1 <= ms <= 1500)%nat
             /\ heroState (step (Elapse ms) p) = swapped.
Proof.
  intros p Htr.
  destruct (run_swap_scheduled evs (mount y) (mount_swap_scheduled y)) as [Hb Hex].
  fold p in Hb, Hex. specialize (Hex Htr).
  apply List.Exists_exists in Hex as (t & Hin & Ht).
  rewrite List.Forall_forall in Hb. specialize (Hb t Hin).
  exists (remaining t). split; [exact Hb|].
  destruct (remaining t) as [|r] eqn:Hr; [lia|].
  cbn [step]. apply elapse_pending_swap.
  apply List.Exists_exists. exists t. repeat split; assumption.
Qed.

Lemma transition_completes_witness :
  exists ms, (1 <= ms <= 1500)%nat
             /\ heroState (step (Elapse ms) (run [Input touchmove] (mount 0)))
                = swapped.
Proof.
  apply (transition_completes 0 [Input touchmove]).
  cbn [run fold_left].
  destruct (mount_top 0) as (_ & _ & Hl & _); [lra|].
  apply (step_input_starts (mount 0) touchmove Hl I).
Defined.

(** *** Waiting *)

Lemma filter_none_due (ts : list Timer) :
  Forall (fun t => (1 < remaining t)%nat) ts ->
  List.filter is_due (map age ts) = []
  /\ List.filter (fun t => negb (is_due t)) (map age ts) = map age ts.
Proof.
  induction ts as [|t ts IH]; intros Hall; [split; reflexivity|].
  inversion Hall as [|? ? Ht Hrest]; subst.
  destruct (IH Hrest) as [H1 H2]. cbn [map List.filter].
  assert (is_due (age t) = false) as ->.
  { unfold is_due, age. cbn. apply Nat.eqb_neq. lia. }
  cbn. rewrite H1, H2. split; reflexivity.
Qed.

(** While no timer is due, time only runs the timers down. *)
Lemma elapse_idle (ms : nat) :
  forall p : Page,
    Forall (fun t => (ms < remaining t)%nat) (timers p) ->
    elapse ms p
    = set_timers
        (map (fun t => mkTimer (remaining t - ms) (task t)) (timers p)) p.
Proof.
  induction ms as [|ms IH]; intros p Hall.
  - cbn [elapse]. destruct p as [h m y o l ts]. unfold set_timers. cbn. f_equal.
    induction ts as [|[r k] ts IHts]; [reflexivity|].
    cbn. rewrite Nat.sub_0_r. f_equal. apply IHts.
    inversion Hall; assumption.
  - cbn [elapse].
    assert (tick p = set_timers (map age (timers p)) p) as Ht.
    { unfold tick. destruct (filter_none_due (timers p)) as [-> ->];
        [|reflexivity].
      eapply Forall_impl; [exact Hall|]. cbn. intros t Hlt. lia. }
    rewrite Ht, IH.
    + unfold set_timers. cbn. f_equal. rewrite map_map. apply map_ext_in.
      intros t _. unfold age. cbn. f_equal. lia.
    + cbn. apply List.Forall_map. eapply Forall_impl; [exact Hall|].
      cbn. intros t Hlt. lia.
Qed.

(** X20: after the first render nothing happens for 500 ms: until then
    no timer fires, so the page is as it was mounted, with the modal
    closed; at 500 ms the modal opens. *)
Theorem modal_opens_after_500ms (y : R) :
  (forall ms, (ms < 500)%nat ->
     step (Elapse ms) (mount y)
     = set_timers [mkTimer (500 - ms) show_modal] (mount y)
     /\ showModal (step (Elapse ms) (mount y)) = false)
  /\ showModal (step (Elapse 500) (mount y)) = true.
Proof.
  assert (timers (mount y) = [mkTimer 500 show_modal]) as Ht
    by (unfold mount; rewrite scrollJackEffect_timers; reflexivity).
  assert (showModal (mount y) = false) as Hm
    by (unfold mount; rewrite scrollJackEffect_showModal; reflexivity).
  split.
  - intros ms Hms. cbn [step].
    rewrite elapse_idle by (rewrite Ht; constructor; [cbn; lia | constructor]).
    rewrite Ht. split; [reflexivity | exact Hm].
  - cbn [step]. destruct (elapse_last_timer 499 (mount y) [] show_modal Ht) as [p0 ->].
    unfold fire. rewrite rerender_showModal. reflexivity.
Qed.

(** X26: a touch move starts the transition like a downward wheel
    event, whatever its direction: once the effect has run in the state
    [initial] at the top (scroll at most 50 px) without the modal, it
    moves the hero to [transitioning], and 1500 ms later the hero is
    [swapped] and the page unlocked. *)
Theorem touchmove_starts_transition (p : Page) :
  heroState p = initial -> showModal p = false -> scrollY p <= 50 ->
  let q := step (Input touchmove) (scrollJackEffect p) in
  overflow (scrollJackEffect p) = overflow_hidden
  /\ heroState q = transitioning
  /\ heroState (step (Elapse 1500) q) = swapped
  /\ overflow (step (Elapse 1500) q) = overflow_auto.
Proof.
  intros Hh Hm Hy q.
  destruct (scrollJackEffect_top p Hy) as [_ Ho]. rewrite Hh in Ho.
  destruct (hero_transition p touchmove Hh Hm Hy I) as (H1 & H2 & H3 & _).
  split; [exact Ho|]. split; [exact H1|]. split; [exact H2 | exact H3].
Qed.

Lemma touchmove_starts_transition_witness :
  let p := mkPage initial false 50 overflow_unset None [mkTimer 500 show_modal] in
  heroState (step (Input touchmove) (scrollJackEffect p)) = transitioning
  /\ overflow (step (Elapse 1500) (step (Input touchmove) (scrollJackEffect p)))
     = overflow_auto.
Proof.
  intros p.
  assert (scrollY p <= 50) as Hy by (simpl; lra).
  destruct (touchmove_starts_transition p eq_refl eq_refl Hy) as (_ & H1 & _ & H3).
  split; [exact H1 | exact H3].
Defined.

End HeroInvariants.

(** ** The counters *)

Section Counters.
Import CountUpAnimation.

Lemma Rpower_2_pos (x : R) : 0 < Rpower 2 x.
Proof. unfold Rpower. apply exp_pos. Qed.

Lemma Rpower_2_le_1 (x : R) : x <= 0 -> Rpower 2 x <= 1.
Proof.
  intros Hx. rewrite <- (Rpower_O 2) by lra. apply Rle_Rpower; lra.
Qed.

Lemma easeValue_range (progress : R) :
  0 <= progress <= 1 -> 0 <= easeValue progress <= 1.
Proof.
  intros Hp. unfold easeValue. destruct (Req_dec_T progress 1); [lra|].
  pose proof (Rpower_2_pos (-10 * progress)).
  pose proof (Rpower_2_le_1 (-10 * progress)). lra.
Qed.

Lemma easeValue_monotone (p q : R) :
  p <= q <= 1 -> easeValue p <= easeValue q.
Proof.
  intros Hpq. unfold easeValue.
  destruct (Req_dec_T q 1) as [Hq|Hq].
  - destruct (Req_dec_T p 1); [lra|].
    pose proof (Rpower_2_pos (-10 * p)). lra.
  - destruct (Req_dec_T p 1); [lra|].
    assert (Rpower 2 (-10 * q) <= Rpower 2 (-10 * p)) by (apply Rle_Rpower; lra).
    lra.
Qed.

Lemma progressAt_monotone (duration start t1 t2 : R) :
  0 < duration -> t1 <= t2 ->
  progressAt duration start t1 <= progressAt duration start t2 <= 1.
Proof.
  intros Hd Ht. unfold progressAt.
  assert ((t1 - start) / duration <= (t2 - start) / duration) as H.
  { unfold Rdiv. apply Rmult_le_compat_r; [|lra].
    apply Rlt_le, Rinv_0_lt_compat, Hd. }
  rcompare.
Qed.

Lemma progressAt_nonneg (duration start t : R) :
  0 < duration -> start <= t -> 0 <= progressAt duration start t.
Proof.
  intros Hd Ht. unfold progressAt.
  assert (0 <= (t - start) / duration) as H.
  { unfold Rdiv. apply Rmult_le_pos; [lra|].
    apply Rlt_le, Rinv_0_lt_compat, Hd. }
  rcompare.
Qed.

Lemma progressAt_done (duration start t : R) :
  0 < duration -> start + duration <= t -> progressAt duration start t = 1.
Proof.
  intros Hd Ht. unfold progressAt.
  assert (1 <= (t - start) / duration) as H.
  { apply (Rmult_le_reg_r duration); [exact Hd|].
    unfold Rdiv. rewrite Rmult_assoc, Rinv_l by lra. lra. }
  rcompare.
Qed.

Lemma animate_running (end_ duration s t : R) (n : Z) (b : bool) :
  s <> 0 ->
  animate end_ duration t (mkCounter (Some s) n b)
  = mkCounter (Some s)
      (Zfloor (easeValue (progressAt duration s t) * end_))
      (Rltb (progressAt duration s t) 1).
Proof.
  intros Hs. unfold animate, unset. cbn [startTime].
  destruct (Req_dec_T s 0); [contradiction | reflexivity].
Qed.

Lemma animate_first_frame (end_ duration t : R) :
  0 < duration ->
  animate end_ duration t started = mkCounter (Some t) 0 true.
Proof.
  intros Hd. unfold animate, started, unset. cbn [startTime].
  assert (progressAt duration t t = 0) as ->.
  { unfold progressAt. replace ((t - t) / duration) with 0 by (field; lra).
    rcompare. }
  unfold easeValue. destruct (Req_dec_T 0 1); [lra|].
  replace (-10 * 0) with 0 by ring. rewrite Rpower_O by lra.
  replace ((1 - 1) * end_) with (IZR 0) by (simpl; ring).
  rewrite ZfloorZ, Rltb_true by lra. reflexivity.
Qed.

(** X21: the first frame sets the start time and shows 0; a frame at or
    after [start + duration] shows [floor(end)] and requests no further
    frame, and from then on frames change nothing. *)
Theorem countup_starts_and_finishes (end_ duration s t : R) (n : Z) :
  0 < duration -> s <> 0 ->
  animate end_ duration s started = mkCounter (Some s) 0 true
  /\ (s + duration <= t ->
      animate end_ duration t (mkCounter (Some s) n true)
      = mkCounter (Some s) (Zfloor end_) false
      /\ forall t', frame end_ duration t'
                      (mkCounter (Some s) (Zfloor end_) false)
                    = mkCounter (Some s) (Zfloor end_) false).
Proof.
  intros Hd Hs. split.
  - apply animate_first_frame, Hd.
  - intros Ht. split; [|reflexivity].
    rewrite animate_running by exact Hs.
    rewrite progressAt_done by assumption.
    unfold easeValue. destruct (Req_dec_T 1 1); [|lra].
    rewrite Rmult_1_l, Rltb_false by lra. reflexivity.
Qed.

Lemma countup_starts_and_finishes_witness :
  animate 1200 2000 16 started = mkCounter (Some 16) 0 true
  /\ animate 1200 2000 2016 (mkCounter (Some 16) 7 true)
     = mkCounter (Some 16) (Zfloor 1200) false.
Proof.
  destruct (countup_starts_and_finishes 1200 2000 16 2016 7) as [H1 H2];
    [lra | lra |].
  split; [exact H1|]. apply H2. lra.
Defined.

(** X22: for a target [end] that is not negative, the count shown at any
    frame after the start lies between 0 and [floor(end)], and a later
    frame never shows less than an earlier one. *)
Theorem countup_bounded_and_monotone (end_ duration s t1 t2 : R) (n : Z) :
  0 < duration -> s <> 0 -> 0 <= end_ -> s <= t1 <= t2 ->
  let c1 := animate end_ duration t1 (mkCounter (Some s) n true) in
  let c2 := animate end_ duration t2 (mkCounter (Some s) n true) in
  (0 <= count c1 <= count c2)%Z /\ (count c2 <= Zfloor end_)%Z.
Proof.
  intros Hd Hs He Ht c1 c2. unfold c1, c2.
  rewrite !animate_running by exact Hs. cbn [count].
  pose proof (progressAt_monotone duration s t1 t2 Hd ltac:(lra)) as Hm.
  pose proof (progressAt_nonneg duration s t1 Hd ltac:(lra)) as H1.
  set (p1 := progressAt duration s t1) in *.
  set (p2 := progressAt duration s t2) in *.
  pose proof (easeValue_monotone p1 p2 Hm) as Hem.
  pose proof (easeValue_range p1 ltac:(lra)) as Hr1.
  pose proof (easeValue_range p2 ltac:(lra)) as Hr2.
  repeat split.
  - apply Zfloor_lub. simpl. nra.
  - apply Zfloor_le. nra.
  - apply Zfloor_le. nra.
Qed.

Lemma countup_bounded_and_monotone_witness :
  let c1 := animate 1200 2000 500 (mkCounter (Some 16) 0 true) in
  let c2 := animate 1200 2000 900 (mkCounter (Some 16) 0 true) in
  (0 <= count c1 <= count c2)%Z.
Proof.
  apply (countup_bounded_and_monotone 1200 2000 16 500 900 0); lra.
Defined.

Lemma frames_after_done (end_ duration : R) (c : Counter) (ts : list R) :
  scheduled c = false ->
  fold_left (fun c t => frame end_ duration t c) ts c = c.
Proof.
  intros Hc. induction ts as [|t ts IH]; [reflexivity|].
  cbn [fold_left]. unfold frame at 2. rewrite Hc. exact IH.
Qed.

Lemma frames_reach_end (end_ duration s : R) (ts : list R) :
  0 < duration -> s <> 0 ->
  forall n : Z,
    Exists (fun t => s + duration <= t) ts ->
    fold_left (fun c t => frame end_ duration t c) ts (mkCounter (Some s) n true)
    = mkCounter (Some s) (Zfloor end_) false.
Proof.
  intros Hd Hs. induction ts as [|t ts IH]; intros n Hex; [inversion Hex|].
  cbn [fold_left]. unfold frame at 2. cbn [scheduled].
  rewrite animate_running by exact Hs.
  destruct (Rle_dec (s + duration) t) as [Ht|Ht].
  - rewrite progressAt_done by assumption.
    unfold easeValue. destruct (Req_dec_T 1 1); [|lra].
    rewrite Rmult_1_l, Rltb_false by lra.
    apply frames_after_done. reflexivity.
  - apply Exists_cons in Hex as [Hex|Hex]; [contradiction|].
    assert (progressAt duration s t < 1) as Hp.
    { unfold progressAt.
      assert ((t - s) / duration < 1) as H.
      { apply (Rmult_lt_reg_r duration); [exact Hd|].
        unfold Rdiv. rewrite Rmult_assoc, Rinv_l by lra. lra. }
      rcompare. }
    rewrite (Rltb_true _ _ Hp). apply IH, Hex.
Qed.

(** X23: a counter whose first frame comes at a non-zero time [t0] ends
    on [floor(end)] and stops as soon as one of its frames comes at
    [t0 + duration] or later, whatever frames come before or after. *)
Theorem countup_play_reaches_end (end_ duration t0 : R) (ts : list R) :
  0 < duration -> t0 <> 0 ->
  Exists (fun t => t0 + duration <= t) ts ->
  play end_ duration (t0 :: ts) = mkCounter (Some t0) (Zfloor end_) false.
Proof.
  intros Hd Ht0 Hex. unfold play. cbn [fold_left].
  unfold frame at 2. cbn [started scheduled].
  rewrite animate_first_frame by exact Hd.
  apply frames_reach_end; assumption.
Qed.

Lemma countup_play_reaches_end_witness :
  play 1200 2000 [16; 33; 1000; 2016; 2033]
  = mkCounter (Some 16) (Zfloor 1200) false.
Proof.
  apply (countup_play_reaches_end 1200 2000 16 [33; 1000; 2016; 2033]);
    [lra | lra |].
  apply Exists_cons. right. apply Exists_cons. right.
  apply Exists_cons. left. lra.
Defined.

End Counters.

(** ** The logo and the reveal *)

Section Decorations.

(** X24: with results of [Math.random()] in [0, 1), every scroll event
    moves each square of the logo by less than 6 px along each axis and
    turns it by less than 30 degrees. *)
Theorem logo_jitter_bounded (draws : nat -> R) :
  (forall k, 0 <= draws k < 1) ->
  let o := AnimatedLogo.handleScroll draws in
  Forall (fun v => -6 <= v < 6)
    [AnimatedLogo.x1 o; AnimatedLogo.y1 o; AnimatedLogo.x2 o; AnimatedLogo.y2 o]
  /\ Forall (fun v => -30 <= v < 30) [AnimatedLogo.r1 o; AnimatedLogo.r2 o].
Proof.
  intros Hd o.
  pose proof (Hd 0%nat). pose proof (Hd 1%nat). pose proof (Hd 2%nat).
  pose proof (Hd 3%nat). pose proof (Hd 4%nat). pose proof (Hd 5%nat).
  split; repeat first [apply Forall_nil_2 | apply Forall_cons_2; [cbn; lra|]].
Qed.

Lemma logo_jitter_bounded_witness :
  let o := AnimatedLogo.handleScroll (fun _ => 0.25) in
  Forall (fun v => -6 <= v < 6)
    [AnimatedLogo.x1 o; AnimatedLogo.y1 o; AnimatedLogo.x2 o; AnimatedLogo.y2 o]
  /\ Forall (fun v => -30 <= v < 30) [AnimatedLogo.r1 o; AnimatedLogo.r2 o].
Proof.
  apply (logo_jitter_bounded (fun _ => 0.25)). intros _. lra.
Defined.

Lemma observed_latch (entries : list bool) (isVisible : bool) :
  ScrollReveal.observed entries isVisible
  = isVisible || existsb (fun b => b) entries.
Proof.
  unfold ScrollReveal.observed. revert isVisible.
  induction entries as [|e entries IH]; intros v; cbn.
  - rewrite orb_false_r. reflexivity.
  - rewrite IH. destruct e, v; reflexivity.
Qed.

(** X25: a revealed block is revealed for good: after any sequence of
    observer callbacks the block is visible exactly when some entry of
    some callback was intersecting, so later callbacks never hide it
    again. *)
Theorem reveal_is_a_latch (before after : list (list bool)) :
  (ScrollReveal.visibleAfter before
   = existsb (existsb (fun b => b)) before)
  /\ (ScrollReveal.visibleAfter before = true ->
      ScrollReveal.visibleAfter (before ++ after) = true).
Proof.
  assert (forall cbs v,
            fold_left (fun v entries => ScrollReveal.observed entries v) cbs v
            = v || existsb (existsb (fun b => b)) cbs) as Hfold.
  { induction cbs as [|entries cbs IH]; intros v; cbn.
    - rewrite orb_false_r. reflexivity.
    - rewrite IH, observed_latch, orb_assoc. reflexivity. }
  unfold ScrollReveal.visibleAfter. split.
  - rewrite Hfold. reflexivity.
  - rewrite !Hfold, existsb_app. cbn. intros ->. reflexivity.
Qed.

End Decorations.
